(** * tony-zhuo/packages: the logger facade and the worker pool

  A shallow embedding of the two Go packages of the repository,
  [logger] (logger/logger.go) and [workerpool], followed by the
  properties of their specification.

  Go values that the code passes around as [any] are a small tagged
  union; pointers to [Logger] are addresses into a heap kept in the
  package state; the goroutines of the pool are threads of a labelled
  transition system whose step function follows the statements of
  [Start], [Close] and of the closure [Start] launches. *)

From Stdlib Require Import ZArith List Lia.
From stdpp Require Import base option list strings.
Import ListNotations.
Local Open Scope string_scope.
Local Open Scope Z_scope.
Local Open Scope list_scope.

(* ================================================================== *)
(** ** Go values *)

Module Go.

(** A dynamically typed value (Go's [any]), as far as the two packages
    look inside one: the nil interface, a [string], an [int], an
    [int64] (an integer that is not an [int]), a [bool] and an [error]
    with its message. *)
Inductive any : Type :=
| Nil
| Str (s : string)
| Int (n : Z)
| Int64 (n : Z)
| Bool (b : bool)
| Error (msg : string).

#[export] Instance any_eq_dec : EqDecision any.
Proof. solve_decision. Defined.

(** The comma-ok type assertions [v.(string)] and [v.(int)]. *)
Definition assert_string (v : any) : option string :=
  match v with Str s => Some s | _ => None end.

Definition assert_int (v : any) : option Z :=
  match v with Int n => Some n | _ => None end.

(** A [context.Context] as the chain of its derivations; [Value] walks
    the chain from the innermost binding outwards and yields nil when
    no binding has the key. *)
Inductive Context : Type :=
| Background
| WithCancel (parent : Context)
| WithValue (parent : Context) (key val : any).

Fixpoint Value (ctx : Context) (key : any) : any :=
  match ctx with
  | Background => Nil
  | WithCancel parent => Value parent key
  | WithValue parent k v => if decide (k = key) then v else Value parent key
  end.

(** An [*os.File]: nil or an open descriptor. *)
Definition File : Type := option nat.
Definition Stdout : File := Some 1%nat.

End Go.

(* ================================================================== *)
(** ** The part of log/slog the logger is built on *)

Module slog.

Definition LevelDebug : Z := -4.
Definition LevelInfo : Z := 0.
Definition LevelWarn : Z := 4.
Definition LevelError : Z := 8.
Definition TimeKey : string := "time".

Inductive HandlerKind : Type := JSONHandler | TextHandler.

(** [ReplaceAttr] is either absent or the one closure [Init] builds,
    which is determined by the time layout it captured. *)
Record HandlerOptions : Type := {
  AddSource : bool;
  Level : Z;
  ReplaceAttr : option string
}.

Record Handler : Type := {
  kind : HandlerKind;
  output : Go.File;
  options : HandlerOptions
}.

Definition NewJSONHandler (w : Go.File) (opts : HandlerOptions) : Handler :=
  {| kind := JSONHandler; output := w; options := opts |}.

Definition NewTextHandler (w : Go.File) (opts : HandlerOptions) : Handler :=
  {| kind := TextHandler; output := w; options := opts |}.

(** What [With] and [WithGroup] have wrapped around the base handler of
    a [*slog.Logger], outermost last. *)
Inductive scope : Type :=
| Attrs (args : list Go.any)
| Group (name : string).

Record Logger : Type := {
  base : Handler;
  scopes : list scope
}.

Definition New (h : Handler) : Logger := {| base := h; scopes := [] |}.

Definition With (args : list Go.any) (l : Logger) : Logger :=
  match args with
  | [] => l
  | _ => {| base := base l; scopes := scopes l ++ [Attrs args] |}
  end.

Definition WithGroup (name : string) (l : Logger) : Logger :=
  if decide (name = "") then l
  else {| base := base l; scopes := scopes l ++ [Group name] |}.

(** One call of [Debug], [Info], [Warn] or [Error] on a [*slog.Logger]. *)
Record Record_ : Type := {
  via : Logger;
  level : Z;
  message : string;
  arguments : list Go.any
}.


End slog.

(* ================================================================== *)
(** ** Package logger (logger/logger.go) *)

Module logger.

(** [type Logger struct { slog *slog.Logger; handler slog.Handler }] *)
Record Logger : Type := {
  slog : slog.Logger;
  handler : slog.Handler
}.

(** [type Config struct]. *)
Record Config : Type := {
  Level : Z;
  Format : string;
  AddSource : bool;
  Output : Go.File;
  TimeFormat : string
}.

(** A [*Logger]: nil, or the address of a [Logger] in the heap. *)
Definition ptr : Type := option nat.

(** The package-level variables [instance], [once] and [mutex], the
    [Logger] values allocated so far (an address is an index, a new
    value goes to the end), slog's process-wide default logger, and
    the records handed to slog so far, oldest first. *)
Record Globals : Type := {
  instance : ptr;
  once : bool;
  mutex : bool;
  heap : list Logger;
  default : option slog.Logger;
  records : list slog.Record_
}.

(** The state of the package when the program starts. *)
Definition initial : Globals :=
  {| instance := None; once := false; mutex := false; heap := [];
     default := None; records := [] |}.

Definition set_instance (p : ptr) (g : Globals) : Globals :=
  {| instance := p; once := once g; mutex := mutex g; heap := heap g;
     default := default g; records := records g |}.

Definition set_once (b : bool) (g : Globals) : Globals :=
  {| instance := instance g; once := b; mutex := mutex g; heap := heap g;
     default := default g; records := records g |}.

Definition set_mutex (b : bool) (g : Globals) : Globals :=
  {| instance := instance g; once := once g; mutex := b; heap := heap g;
     default := default g; records := records g |}.

Definition set_heap (h : list Logger) (g : Globals) : Globals :=
  {| instance := instance g; once := once g; mutex := mutex g; heap := h;
     default := default g; records := records g |}.

Definition set_default (d : option slog.Logger) (g : Globals) : Globals :=
  {| instance := instance g; once := once g; mutex := mutex g; heap := heap g;
     default := d; records := records g |}.

Definition set_records (rs : list slog.Record_) (g : Globals) : Globals :=
  {| instance := instance g; once := once g; mutex := mutex g; heap := heap g;
     default := default g; records := rs |}.

(** How a call ends: it returns a value, it panics with a value, it
    ends the process with a status ([os.Exit]), or it never gets past
    a lock that is held. *)
Inductive result (A : Type) : Type :=
| Returns (a : A) (g : Globals)
| Panics (v : Go.any) (g : Globals)
| Exits (code : Z) (g : Globals)
| Blocks.
Arguments Returns {A} a g.
Arguments Panics {A} v g.
Arguments Exits {A} code g.
Arguments Blocks {A}.

(** Calls thread the package state and stop at the first panic. *)
Definition M (A : Type) : Type := Globals -> result A.

Definition ret {A : Type} (a : A) : M A := fun g => Returns a g.

Definition bind {A B : Type} (m : M A) (k : A -> M B) : M B :=
  fun g =>
    match m g with
    | Returns a g' => k a g'
    | Panics v g' => Panics v g'
    | Exits c g' => Exits c g'
    | Blocks => Blocks
    end.

Notation "x <- m ;; k" := (bind m (fun x => k))
  (at level 100, m at next level, right associativity).
Notation "m ;;; k" := (bind m (fun _ => k))
  (at level 100, right associativity).

Definition panic {A : Type} (v : Go.any) : M A := fun g => Panics v g.

Definition exit {A : Type} (code : Z) : M A := fun g => Exits code g.

Definition nil_dereference : Go.any :=
  Go.Error "invalid memory address or nil pointer dereference".

(** Reading a field through a [*Logger]; a nil pointer panics. *)
Definition deref (l : ptr) : M Logger :=
  fun g =>
    match l with
    | None => Panics nil_dereference g
    | Some a =>
        match heap g !! a with
        | Some L => Returns L g
        | None => Panics nil_dereference g
        end
    end.

(** [&Logger{...}]: a fresh address holding the value. *)
Definition alloc (L : Logger) : M ptr :=
  fun g => Returns (Some (length (heap g))) (set_heap (heap g ++ [L]) g).

(** [mutex.Lock(); defer mutex.Unlock()] around a function body: the
    lock is released when the body returns or panics. *)
Definition locked {A : Type} (body : M A) : M A :=
  fun g =>
    if mutex g then Blocks
    else
      match body (set_mutex true g) with
      | Returns a g' => Returns a (set_mutex false g')
      | Panics v g' => Panics v (set_mutex false g')
      | Exits c g' => Exits c g'
      | Blocks => Blocks
      end.

(** A call of one of slog's levelled methods on [l.slog]. *)
Definition emit (lvl : Z) (l : ptr) (msg : string) (args : list Go.any) : M unit :=
  L <- deref l ;;
  fun g =>
    Returns tt
      (set_records
         (records g ++
            [{| slog.via := slog L; slog.level := lvl;
                slog.message := msg; slog.arguments := args |}]) g).

(** The function [Init] passes to [once.Do]. *)
Definition default_config : Config :=
  {| Level := slog.LevelInfo; Format := "text"; AddSource := false;
     Output := Go.Stdout; TimeFormat := "" |}.

Definition with_output (c : Config) : Config :=
  match Output c with
  | None =>
      {| Level := Level c; Format := Format c; AddSource := AddSource c;
         Output := Go.Stdout; TimeFormat := TimeFormat c |}
  | Some _ => c
  end.

Definition handler_options (config : Config) : slog.HandlerOptions :=
  {| slog.AddSource := AddSource config;
     slog.Level := Level config;
     slog.ReplaceAttr :=
       if decide (TimeFormat config = "") then None
       else Some (TimeFormat config) |}.

Definition new_handler (config : Config) : slog.Handler :=
  let opts := handler_options config in
  if decide (Format config = "json")
  then slog.NewJSONHandler (Output config) opts
  else slog.NewTextHandler (Output config) opts.

Definition build (conf : option Config) : Logger :=
  let config :=
    with_output (match conf with None => default_config | Some c => c end) in
  let h := new_handler config in
  {| slog := slog.New h; handler := h |}.

Definition construct (conf : option Config) (g : Globals) : Globals :=
  set_instance (Some (length (heap g)))
    (set_heap (heap g ++ [build conf]) g).

(** [once.Do(f)]: [f] runs on the first call only. *)
Definition once_Do (f : Globals -> Globals) (g : Globals) : Globals :=
  if once g then g else set_once true (f g).

Definition Init (conf : option Config) : M ptr :=
  fun g =>
    let g' := once_Do (construct conf) g in
    Returns (instance g') g'.

Definition GetInstance : M ptr :=
  fun g =>
    match instance g with
    | None => Panics (Go.Str "logger not initialized") g
    | Some a => Returns (Some a) g
    end.

Definition With (l : ptr) (args : list Go.any) : M ptr :=
  locked (L <- deref l ;;
          alloc {| slog := slog.With args (slog L); handler := handler L |}).

Definition WithGroup (l : ptr) (name : string) : M ptr :=
  locked (L <- deref l ;;
          alloc {| slog := slog.WithGroup name (slog L); handler := handler L |}).

Definition Debug (l : ptr) (msg : string) (args : list Go.any) : M unit :=
  emit slog.LevelDebug l msg args.

Definition Info (l : ptr) (msg : string) (args : list Go.any) : M unit :=
  emit slog.LevelInfo l msg args.

Definition Warn (l : ptr) (msg : string) (args : list Go.any) : M unit :=
  emit slog.LevelWarn l msg args.

Definition Error (l : ptr) (msg : string) (args : list Go.any) : M unit :=
  emit slog.LevelError l msg args.

(** [Panic] never returns: it panics with [msg] once it has logged. *)
Definition Panic (l : ptr) (msg : string) (args : list Go.any) : M unit :=
  emit slog.LevelError l msg args ;;;
  panic (Go.Str msg).

Definition Fatal (l : ptr) (msg : string) (args : list Go.any) : M unit :=
  emit slog.LevelError l msg args ;;;
  exit 1.

(** The attributes [WithContext] collects from the context. *)
Definition context_attrs (ctx : Go.Context) : list Go.any :=
  let attrs := [] in
  let attrs :=
    match Go.assert_string (Go.Value ctx (Go.Str "request_id")) with
    | Some reqID => attrs ++ [Go.Str "request_id"; Go.Str reqID]
    | None => attrs
    end in
  let attrs :=
    match Go.assert_int (Go.Value ctx (Go.Str "user_id")) with
    | Some userID => attrs ++ [Go.Str "user_id"; Go.Int userID]
    | None => attrs
    end in
  attrs.

Definition WithContext (l : ptr) (ctx : Go.Context) : M ptr :=
  locked (let attrs := context_attrs ctx in
          if decide (length attrs = 0%nat) then ret l
          else
            L <- deref l ;;
            alloc {| slog := slog.With attrs (slog L); handler := handler L |}).

Definition SetDefault (l : ptr) : M unit :=
  locked (L <- deref l ;;
          fun g => Returns tt (set_default (Some (slog L)) g)).

Definition Handler (l : ptr) : M slog.Handler :=
  L <- deref l ;;
  ret (handler L).

(** *** Clients of the package *)

(** A call a client makes on the package or on one of its loggers. *)
Inductive call : Type :=
| CallInit (conf : option Config)
| CallGetInstance
| CallWith (l : ptr) (args : list Go.any)
| CallWithGroup (l : ptr) (name : string)
| CallDebug (l : ptr) (msg : string) (args : list Go.any)
| CallInfo (l : ptr) (msg : string) (args : list Go.any)
| CallWarn (l : ptr) (msg : string) (args : list Go.any)
| CallError (l : ptr) (msg : string) (args : list Go.any)
| CallPanic (l : ptr) (msg : string) (args : list Go.any)
| CallFatal (l : ptr) (msg : string) (args : list Go.any)
| CallWithContext (l : ptr) (ctx : Go.Context)
| CallSetDefault (l : ptr)
| CallHandler (l : ptr).

(** The state in which the client goes on after a call: after a return
    or after a panic it recovered from; there is none after [os.Exit]
    or behind a lock. *)
Definition after {A : Type} (r : result A) : option Globals :=
  match r with
  | Returns _ g => Some g
  | Panics _ g => Some g
  | Exits _ _ => None
  | Blocks => None
  end.

Definition perform (c : call) (g : Globals) : option Globals :=
  match c with
  | CallInit conf => after (Init conf g)
  | CallGetInstance => after (GetInstance g)
  | CallWith l args => after (With l args g)
  | CallWithGroup l name => after (WithGroup l name g)
  | CallDebug l msg args => after (Debug l msg args g)
  | CallInfo l msg args => after (Info l msg args g)
  | CallWarn l msg args => after (Warn l msg args g)
  | CallError l msg args => after (Error l msg args g)
  | CallPanic l msg args => after (Panic l msg args g)
  | CallFatal l msg args => after (Fatal l msg args g)
  | CallWithContext l ctx => after (WithContext l ctx g)
  | CallSetDefault l => after (SetDefault l g)
  | CallHandler l => after (Handler l g)
  end.

Fixpoint history (cs : list call) (g : Globals) : option Globals :=
  match cs with
  | [] => Some g
  | c :: rest =>
      match perform c g with
      | Some g' => history rest g'
      | None => None
      end
  end.

Definition is_Init (c : call) : bool :=
  match c with CallInit _ => true | _ => false end.

(** Whether the client has called [Init]. *)
Definition calls_Init (cs : list call) : bool := existsb is_Init cs.

(** [g'] has every logger of [g] at its address, and the singleton of
    [g] if [g] has one. *)
Definition extends (g g' : Globals) : Prop :=
  (exists more, heap g' = heap g ++ more) /\
  mutex g' = mutex g /\
  (once g = true -> once g' = true /\ instance g' = instance g).

(** Between calls, the singleton exists exactly when [once] has run and
    the lock is free. *)
Definition consistent (g : Globals) : Prop :=
  mutex g = false /\
  match instance g with
  | None => once g = false
  | Some a => once g = true /\ is_Some (heap g !! a)
  end.


(** *** Sample inputs *)

Definition json_config : Config :=
  {| Level := slog.LevelDebug; Format := "json"; AddSource := true;
     Output := None; TimeFormat := "15:04:05" |}.

Definition request_context : Go.Context :=
  Go.WithValue
    (Go.WithValue (Go.WithCancel Go.Background) (Go.Str "request_id") (Go.Str "r-17"))
    (Go.Str "user_id") (Go.Int 42).

(** The package after [Init(nil)]. *)
Definition ready : Globals :=
  match Init None initial with
  | Returns _ g => g
  | _ => initial
  end.


(** *** Further vocabulary *)

(** The configuration [Init] works with: the default one for nil, and
    standard output where the configuration names no output. *)
Definition effective (conf : option Config) : Config :=
  with_output (match conf with None => default_config | Some c => c end).

(** Every logger of the heap has the handler [h], in its [handler]
    field and under its slog logger. *)
Definition shares (h : slog.Handler) (g : Globals) : Prop :=
  Forall (fun L => handler L = h /\ slog.base (slog L) = h) (heap g).


(** The record the levelled methods hand to slog. *)
Definition record_of (L : Logger) (lvl : Z) (msg : string)
    (args : list Go.any) : slog.Record_ :=
  {| slog.via := slog L; slog.level := lvl;
     slog.message := msg; slog.arguments := args |}.

End logger.

(* ================================================================== *)
(** ** Package workerpool *)

Module workerpool.

(** What a call of [Process] on a worker does: the pool sees it return
    nil, return an error, panic, or never return. *)
Inductive behaviour : Type :=
| ReturnsNil
| ReturnsError (msg : string)
| PanicsWith (v : Go.any)
| NeverReturns.

(** An implementation of [IWorker], as the results of its methods. *)
Record Worker : Type := {
  Name : string;
  Health : bool;
  Process : behaviour
}.

(** A value of the interface type [IWorker]: nil or an implementation. *)
Definition IWorker : Type := option Worker.

(** [type WorkerPool struct].  [ctx] and [cancel] are the context and
    whether its cancel function has been called; [wg] is the counter of
    the wait group; [done] is nil or a channel. *)
Record WorkerPool : Type := {
  ctx : Go.Context;
  cancel : bool;
  wg : Z;
  logger : logger.ptr;
  workers : list IWorker;
  done : option nat
}.

Definition set_cancel (b : bool) (wp : WorkerPool) : WorkerPool :=
  {| ctx := ctx wp; cancel := b; wg := wg wp; logger := logger wp;
     workers := workers wp; done := done wp |}.

Definition set_wg (n : Z) (wp : WorkerPool) : WorkerPool :=
  {| ctx := ctx wp; cancel := cancel wp; wg := n; logger := logger wp;
     workers := workers wp; done := done wp |}.

Definition set_workers (ws : list IWorker) (wp : WorkerPool) : WorkerPool :=
  {| ctx := ctx wp; cancel := cancel wp; wg := wg wp; logger := logger wp;
     workers := ws; done := done wp |}.

(** The composite literal of [NewWorkerPool] names five fields; [done]
    is not among them and keeps the zero value of a channel, nil. *)
Definition NewWorkerPool : logger.M WorkerPool :=
  logger.bind logger.GetInstance (fun l =>
  logger.bind (logger.WithGroup l "worker pool") (fun lg =>
  logger.ret
    {| ctx := Go.WithCancel Go.Background;
       cancel := false;
       wg := 0;
       logger := lg;
       workers := [];
       done := None |})).

Definition Register (worker : IWorker) (wp : WorkerPool) : WorkerPool :=
  match worker with
  | None => wp
  | Some _ => set_workers (workers wp ++ [worker]) wp
  end.

(** *** The threads of a running pool *)

(** Where the caller of [Start] is.  [StartRange rest]: at the head of
    the loop, [rest] being what is left of the slice the range clause
    read when the loop began; [StartGo worker rest]: after [wg.Add(1)],
    at the go statement; [StartWait]: at [wg.Wait()]; [StartSend]: at
    the send on [done]. *)
Inductive start_pc : Type :=
| StartIdle
| StartRange (rest : list IWorker)
| StartGo (worker : IWorker) (rest : list IWorker)
| StartWait
| StartSend
| StartReturned.

(** Where the caller of [Close] is: before each of its four statements. *)
Inductive close_pc : Type :=
| CloseIdle
| CloseLogClosing
| CloseCancel
| CloseReceive
| CloseLogClosed
| CloseReturned.

(** Where a launched goroutine is.  [UnitProcess]: the call of
    [worker.Process()] is pending; [UnitLogError err]: at
    [wp.logger.Error]; [UnitDeferred p]: the deferred function starts,
    [p] being the panic that unwinds the goroutine if there is one;
    [UnitLogPanic err]: at [wp.logger.Panic]; [UnitDone]: at
    [wp.wg.Done()]; [UnitExited]: the goroutine is over; [UnitDead v]:
    a panic left the goroutine unrecovered. *)
Inductive unit_pc : Type :=
| UnitProcess
| UnitLogError (err : Go.any)
| UnitDeferred (p : option Go.any)
| UnitLogPanic (err : Go.any)
| UnitDone
| UnitExited
| UnitDead (v : Go.any).

(** A goroutine of [Start] with the worker its closure captured: each
    iteration of the loop has its own [worker] variable, as in Go 1.22
    and later. *)
Record goroutine : Type := {
  worker : IWorker;
  pc : unit_pc
}.

(** How the process ended, when it has. *)
Inductive halt : Type :=
| Crash (v : Go.any)
| Exit (code : Z).

Record System : Type := {
  globals : logger.Globals;
  pool : WorkerPool;
  start : start_pc;
  close : close_pc;
  units : list goroutine;
  halted : option halt
}.

Definition set_globals (g : logger.Globals) (s : System) : System :=
  {| globals := g; pool := pool s; start := start s; close := close s;
     units := units s; halted := halted s |}.

Definition set_pool (wp : WorkerPool) (s : System) : System :=
  {| globals := globals s; pool := wp; start := start s; close := close s;
     units := units s; halted := halted s |}.

Definition set_start (p : start_pc) (s : System) : System :=
  {| globals := globals s; pool := pool s; start := p; close := close s;
     units := units s; halted := halted s |}.

Definition set_close (p : close_pc) (s : System) : System :=
  {| globals := globals s; pool := pool s; start := start s; close := p;
     units := units s; halted := halted s |}.

Definition set_units (us : list goroutine) (s : System) : System :=
  {| globals := globals s; pool := pool s; start := start s; close := close s;
     units := us; halted := halted s |}.

Definition set_halted (h : option halt) (s : System) : System :=
  {| globals := globals s; pool := pool s; start := start s; close := close s;
     units := units s; halted := h |}.

Definition set_pc (i : nat) (p : unit_pc) (s : System) : System :=
  match units s !! i with
  | Some u => set_units (<[i := {| worker := worker u; pc := p |}]> (units s)) s
  | None => s
  end.

(** A pool nobody has started or closed yet. *)
Definition boot (g : logger.Globals) (wp : WorkerPool) : System :=
  {| globals := g; pool := wp; start := StartIdle; close := CloseIdle;
     units := []; halted := None |}.

(** What the scheduler and the callers of the pool can do next. *)
Inductive action : Type :=
| CallRegister (w : IWorker)
| CallStart
| CallClose
| StepStart
| StepClose
| StepUnit (i : nat)
| Handoff.

(** One statement of [Start]. *)
Definition step_Start (s : System) : option System :=
  match start s with
  | StartRange [] => Some (set_start StartWait s)
  | StartRange (w :: rest) =>
      Some (set_start (StartGo w rest)
              (set_pool (set_wg (wg (pool s) + 1) (pool s)) s))
  | StartGo w rest =>
      Some (set_start (StartRange rest)
              (set_units (units s ++ [{| worker := w; pc := UnitProcess |}]) s))
  | StartWait =>
      if decide (wg (pool s) = 0) then Some (set_start StartSend s) else None
  | StartIdle | StartSend | StartReturned => None
  end.

(** One statement of [Close].  A panic in the caller's goroutine is
    not recovered by the pool. *)
Definition log_Close (msg : string) (next : close_pc) (s : System) : option System :=
  match logger.Info (logger (pool s)) msg [] (globals s) with
  | logger.Returns _ g => Some (set_close next (set_globals g s))
  | logger.Panics v g => Some (set_halted (Some (Crash v)) (set_globals g s))
  | logger.Exits c g => Some (set_halted (Some (Exit c)) (set_globals g s))
  | logger.Blocks => None
  end.

Definition step_Close (s : System) : option System :=
  match close s with
  | CloseLogClosing => log_Close "worker pool closing" CloseCancel s
  | CloseCancel =>
      Some (set_close CloseReceive (set_pool (set_cancel true (pool s)) s))
  | CloseLogClosed => log_Close "worker pool closed" CloseReturned s
  | CloseIdle | CloseReceive | CloseReturned => None
  end.

(** The send of [Start] meets the receive of [Close] on a channel that
    is not nil; on a nil channel neither ever proceeds. *)
Definition step_Handoff (s : System) : option System :=
  match done (pool s), start s, close s with
  | Some _, StartSend, CloseReceive =>
      Some (set_start StartReturned (set_close CloseLogClosed s))
  | _, _, _ => None
  end.

(** One statement of the goroutine at index [i]. *)
Definition step_unit (i : nat) (s : System) : option System :=
  match units s !! i with
  | None => None
  | Some u =>
      match pc u with
      | UnitProcess =>
          match worker u with
          | None => Some (set_pc i (UnitDeferred (Some logger.nil_dereference)) s)
          | Some w =>
              match Process w with
              | ReturnsNil => Some (set_pc i (UnitDeferred None) s)
              | ReturnsError e => Some (set_pc i (UnitLogError (Go.Error e)) s)
              | PanicsWith v => Some (set_pc i (UnitDeferred (Some v)) s)
              | NeverReturns => None
              end
          end
      | UnitLogError err =>
          match logger.Error (logger (pool s)) "worker process err: %v" [err]
                  (globals s) with
          | logger.Returns _ g => Some (set_pc i (UnitDeferred None) (set_globals g s))
          | logger.Panics v g =>
              Some (set_pc i (UnitDeferred (Some v)) (set_globals g s))
          | logger.Exits c g => Some (set_halted (Some (Exit c)) (set_globals g s))
          | logger.Blocks => None
          end
      | UnitDeferred None => Some (set_pc i UnitDone s)
      | UnitDeferred (Some err) => Some (set_pc i (UnitLogPanic err) s)
      | UnitLogPanic err =>
          match logger.Panic (logger (pool s)) "panic: %v" [err] (globals s) with
          | logger.Returns _ g => Some (set_pc i UnitDone (set_globals g s))
          | logger.Panics v g =>
              Some (set_halted (Some (Crash v))
                      (set_pc i (UnitDead v) (set_globals g s)))
          | logger.Exits c g => Some (set_halted (Some (Exit c)) (set_globals g s))
          | logger.Blocks => None
          end
      | UnitDone =>
          if decide (wg (pool s) - 1 < 0)
          then
            let v := Go.Str "sync: negative WaitGroup counter" in
            Some (set_halted (Some (Crash v)) (set_pc i (UnitDead v) s))
          else
            Some (set_pc i UnitExited
                    (set_pool (set_wg (wg (pool s) - 1) (pool s)) s))
      | UnitExited | UnitDead _ => None
      end
  end.

(** The transition function: [None] when the action is not enabled.
    Nothing runs once the process has ended. *)
Definition step (a : action) (s : System) : option System :=
  match halted s with
  | Some _ => None
  | None =>
      match a with
      | CallRegister w => Some (set_pool (Register w (pool s)) s)
      | CallStart =>
          match start s with
          | StartIdle => Some (set_start (StartRange (workers (pool s))) s)
          | _ => None
          end
      | CallClose =>
          match close s with
          | CloseIdle => Some (set_close CloseLogClosing s)
          | _ => None
          end
      | StepStart => step_Start s
      | StepClose => step_Close s
      | StepUnit i => step_unit i s
      | Handoff => step_Handoff s
      end
  end.

Fixpoint exec (acts : list action) (s : System) : option System :=
  match acts with
  | [] => Some s
  | a :: rest =>
      match step a s with
      | Some s' => exec rest s'
      | None => None
      end
  end.

(** A program that initialises the logger, builds a pool and registers
    [ws] in order. *)
Definition registers (ws : list IWorker) (wp : WorkerPool) : WorkerPool :=
  fold_left (fun p w => Register w p) ws wp.

Definition setup (conf : option logger.Config) (ws : list IWorker)
  : logger.result WorkerPool :=
  logger.bind (logger.Init conf) (fun _ =>
  logger.bind NewWorkerPool (fun wp =>
  logger.ret (registers ws wp))) logger.initial.

(** The state after the program has set the pool up and [acts] have
    run, if they can. *)
Definition run (conf : option logger.Config) (ws : list IWorker)
    (acts : list action) : option System :=
  match setup conf ws with
  | logger.Returns wp g => exec acts (boot g wp)
  | _ => None
  end.

(** The runs of the pool a program can observe. *)
Definition reachable (conf : option logger.Config) (ws : list IWorker)
    (s : System) : Prop :=
  exists wp g acts,
    setup conf ws = logger.Returns wp g /\ exec acts (boot g wp) = Some s.

(** *** Vocabulary of the properties *)

Definition non_nil (w : IWorker) : bool :=
  match w with Some _ => true | None => false end.

(** How many calls of a sequence of [Register] calls pass a worker
    that is not nil. *)
Fixpoint non_nil_calls (ws : list IWorker) : nat :=
  match ws with
  | [] => 0%nat
  | Some _ :: rest => S (non_nil_calls rest)
  | None :: rest => non_nil_calls rest
  end.

(** A goroutine is over, normally, once it has run [wg.Done()]. *)
Definition exited (u : goroutine) : Prop := pc u = UnitExited.

(** What a goroutine still owes the wait group. *)
Definition pending (u : goroutine) : Z :=
  match pc u with UnitExited => 0 | _ => 1 end.

Fixpoint outstanding (us : list goroutine) : Z :=
  match us with
  | [] => 0
  | u :: rest => pending u + outstanding rest
  end.

(** [Start] is past [wg.Wait()]. *)
Definition past_wait (s : System) : Prop :=
  start s = StartSend \/ start s = StartReturned.

(** The counter of the wait group is the number of goroutines that
    have not run [Done], plus one between [Add] and the go statement. *)
Definition counted (s : System) : Prop :=
  wg (pool s) =
    outstanding (units s) +
    match start s with StartGo _ _ => 1 | _ => 0 end.

(** The goroutines are those of the workers of [ws] that the loop has
    passed, in order. *)
Definition launched (ws : list IWorker) (s : System) : Prop :=
  match start s with
  | StartIdle => units s = []
  | StartRange rest => map worker (units s) ++ rest = ws
  | StartGo w rest => map worker (units s) ++ w :: rest = ws
  | StartWait | StartSend | StartReturned => map worker (units s) = ws
  end.

(** The pool logs through a logger that exists. *)
Definition logger_ok (s : System) : Prop :=
  exists a, logger (pool s) = Some a /\
            is_Some (logger.heap (globals s) !! a).

(** Some record says that the pool is closed. *)
Definition closed_logged (s : System) : Prop :=
  Exists (fun r => slog.message r = "worker pool closed")
    (logger.records (globals s)).

(** With a nil [done], nothing is ever sent or received on it. *)
Definition nil_channel (s : System) : Prop :=
  done (pool s) = None /\
  start s <> StartReturned /\
  close s <> CloseLogClosed /\
  close s <> CloseReturned /\
  ~ closed_logged s.

(** Where a goroutine whose [Process] panics with [v] can be. *)
Definition panic_path (v : Go.any) (s : System) (u : goroutine) : Prop :=
  pc u = UnitProcess \/
  pc u = UnitDeferred (Some v) \/
  pc u = UnitLogPanic v \/
  (pc u = UnitDead (Go.Str "panic: %v") /\
   halted s = Some (Crash (Go.Str "panic: %v"))).

Definition panics_escape (s : System) : Prop :=
  forall i u w v,
    units s !! i = Some u ->
    worker u = Some w ->
    Process w = PanicsWith v ->
    panic_path v s u.

(** *** Sample inputs *)

Definition idler : Worker :=
  {| Name := "idler"; Health := true; Process := ReturnsNil |}.

Definition failing : Worker :=
  {| Name := "failing"; Health := true; Process := ReturnsError "no route" |}.

Definition faulty : Worker :=
  {| Name := "faulty"; Health := false; Process := PanicsWith (Go.Str "boom") |}.

(** *** Further vocabulary *)

(** The workers the loop of [Start] has read and not launched yet. *)
Definition queue (s : System) : list IWorker :=
  match start s with
  | StartRange rest => rest
  | StartGo w rest => w :: rest
  | _ => []
  end.

(** A goroutine is where its worker took it: at the error log after an
    error, in the deferred function with a panic after a panic, dead
    after [wp.logger.Panic] raised "panic: %v". *)
Definition on_path (u : goroutine) : Prop :=
  match pc u with
  | UnitLogError err =>
      exists w e, worker u = Some w /\ Process w = ReturnsError e /\
                  err = Go.Error e
  | UnitDeferred (Some v) | UnitLogPanic v =>
      exists w, worker u = Some w /\ Process w = PanicsWith v
  | UnitDead v =>
      v = Go.Str "panic: %v" /\
      exists w v0, worker u = Some w /\ Process w = PanicsWith v0
  | _ => True
  end.

(** The process has ended only by the panic of [wp.logger.Panic] in a
    goroutine. *)
Definition crash_cause (s : System) : Prop :=
  match halted s with
  | None => True
  | Some h =>
      h = Crash (Go.Str "panic: %v") /\
      Exists (fun u => pc u = UnitDead (Go.Str "panic: %v")) (units s)
  end.

Definition sound (s : System) : Prop :=
  logger_ok s /\
  counted s /\
  Forall (fun w => w <> None) (workers (pool s)) /\
  Forall (fun w => w <> None) (queue s) /\
  Forall (fun u => worker u <> None /\ on_path u) (units s) /\
  crash_cause s.

(** The slog logger the pool logs through, when [Init] was called with
    [conf]. *)
Definition pool_slog (conf : option logger.Config) : slog.Logger :=
  slog.WithGroup "worker pool" (logger.slog (logger.build conf)).

(** A record the pool writes: through its own logger, and one of the
    three the code has that can be reached. *)
Definition pool_record (conf : option logger.Config) (r : slog.Record_) : Prop :=
  slog.via r = pool_slog conf /\
  ((slog.level r = slog.LevelInfo /\
    slog.message r = "worker pool closing" /\ slog.arguments r = []) \/
   (slog.level r = slog.LevelError /\
    slog.message r = "worker process err: %v" /\
    exists e, slog.arguments r = [Go.Error e]) \/
   (slog.level r = slog.LevelError /\
    slog.message r = "panic: %v" /\
    exists v, slog.arguments r = [v])).

(** The package state and the logger of the pool are those of [setup]. *)
Definition pool_logging (conf : option logger.Config) (s : System) : Prop :=
  logger (pool s) = Some 1%nat /\
  logger.heap (globals s) =
    [logger.build conf;
     {| logger.slog := pool_slog conf;
        logger.handler := logger.handler (logger.build conf) |}] /\
  Forall (pool_record conf) (logger.records (globals s)).




(** The pool [NewWorkerPool] returns when the package has [n] loggers. *)
Definition new_pool (n : nat) : WorkerPool :=
  {| ctx := Go.WithCancel Go.Background;
     cancel := false;
     wg := 0;
     logger := Some n;
     workers := [];
     done := None |}.

End workerpool.

(* ================================================================== *)
(** * Properties of package logger *)

Section LoggerFacts.

Import logger.

Ltac unfold_calls :=
  unfold perform, after, Init, GetInstance, With, WithGroup, Debug, Info,
    Warn, Error, Panic, Fatal, WithContext, SetDefault, Handler, emit,
    locked, bind, ret, panic, exit, deref, alloc, once_Do, construct in *.

Ltac split_matches :=
  repeat match goal with
    | |- context [match ?x with _ => _ end] => destruct x eqn:?
    | H : context [match ?x with _ => _ end] |- _ => destruct x eqn:?
    end.

Lemma Init_again conf g :
  once g = true -> Init conf g = Returns (instance g) g.
Proof. intros Hg. unfold Init, once_Do. now rewrite Hg. Qed.

Lemma Init_first conf g :
  once g = false ->
  Init conf g =
    Returns (Some (length (heap g))) (set_once true (construct conf g)).
Proof. intros Hg. unfold Init, once_Do. now rewrite Hg. Qed.

Lemma extends_refl g : extends g g.
Proof.
  repeat split; auto. exists []. now rewrite app_nil_r.
Qed.

Lemma extends_trans g1 g2 g3 : extends g1 g2 -> extends g2 g3 -> extends g1 g3.
Proof.
  intros [[m1 H1] [Hm1 Ho1]] [[m2 H2] [Hm2 Ho2]]. repeat split.
  - exists (m1 ++ m2). rewrite H2, H1. now rewrite app_assoc.
  - congruence.
  - apply Ho2. now apply Ho1.
  - destruct (Ho1 H) as [Ha Hb]. destruct (Ho2 Ha) as [_ Hc]. congruence.
Qed.

Lemma extends_lookup g g' a L :
  extends g g' -> heap g !! a = Some L -> heap g' !! a = Some L.
Proof.
  intros [[more Hh] _] Ha. rewrite Hh. rewrite lookup_app_l; [exact Ha|].
  eapply lookup_lt_Some; eauto.
Qed.

Lemma perform_extends c g g' : perform c g = Some g' -> extends g g'.
Proof.
  intros H. destruct c; unfold_calls; split_matches;
    simplify_eq; simpl in *;
    try apply extends_refl;
    (repeat split; simpl; auto;
     try solve [eexists; reflexivity
               | exists []; now rewrite app_nil_r
               | congruence]).
Qed.

Lemma history_extends cs : forall g g', history cs g = Some g' -> extends g g'.
Proof.
  induction cs as [|c cs IH]; simpl; intros g g' H.
  - simplify_eq. apply extends_refl.
  - destruct (perform c g) as [g1|] eqn:Hc; [|discriminate].
    eapply extends_trans; [eapply perform_extends; eauto | eauto].
Qed.

Lemma perform_once c g g' :
  perform c g = Some g' -> once g' = once g || is_Init c.
Proof.
  intros H. destruct c; unfold_calls; split_matches;
    simplify_eq; simpl in *; auto using orb_false_r, orb_true_r;
    try (symmetry; apply orb_false_r);
    try (symmetry; apply orb_true_r).
Qed.

Lemma history_once cs :
  forall g g', history cs g = Some g' -> once g' = once g || calls_Init cs.
Proof.
  induction cs as [|c cs IH]; simpl; intros g g' H.
  - simplify_eq. now rewrite orb_false_r.
  - destruct (perform c g) as [g1|] eqn:Hc; [|discriminate].
    rewrite (IH _ _ H), (perform_once _ _ _ Hc).
    unfold calls_Init. now rewrite orb_assoc.
Qed.

Lemma initial_consistent : consistent initial.
Proof. now split. Qed.

Lemma perform_instance c g g' :
  perform c g = Some g' -> is_Init c = false -> instance g' = instance g.
Proof.
  intros H Hc. destruct c; try discriminate;
    unfold_calls; split_matches; now simplify_eq.
Qed.

Lemma perform_consistent c g g' :
  consistent g -> perform c g = Some g' -> consistent g'.
Proof.
  intros [Hm Hi] H.
  pose proof (perform_extends _ _ _ H) as Hext.
  pose proof (perform_once _ _ _ H) as Ho.
  destruct Hext as [Hheap [Hmu Honce]].
  split; [congruence|].
  destruct (instance g) as [a|] eqn:Ha.
  - destruct Hi as [Hog [L HL]].
    destruct (Honce Hog) as [Ho' Hi']. rewrite Hi'. split; [exact Ho'|].
    exists L. destruct Hheap as [more Hh]. rewrite Hh.
    rewrite lookup_app_l; [exact HL | eapply lookup_lt_Some; eauto].
  - destruct (is_Init c) eqn:Hc.
    + destruct c; try discriminate. unfold perform in H.
      rewrite (Init_first _ _ Hi) in H. simpl in H. simplify_eq. simpl.
      split; [reflexivity|]. eexists. apply list_lookup_middle. reflexivity.
    + rewrite (perform_instance _ _ _ H Hc), Ha.
      rewrite Ho, Hi. reflexivity.
Qed.

Lemma history_consistent cs :
  forall g g', consistent g -> history cs g = Some g' -> consistent g'.
Proof.
  induction cs as [|c cs IH]; simpl; intros g g' Hg H.
  - now simplify_eq.
  - destruct (perform c g) as [g1|] eqn:Hc; [|discriminate].
    eauto using perform_consistent.
Qed.


(** C7. A client that has never called [Init] gets a panic with the
    value "logger not initialized" from [GetInstance], and no pointer;
    a client that has called [Init] gets the singleton, the pointer
    that every call of [Init] returns. *)
Theorem GetInstance_singleton cs g :
  history cs initial = Some g ->
  if calls_Init cs
  then exists a,
      GetInstance g = Returns (Some a) g /\
      (forall conf, Init conf g = Returns (Some a) g) /\
      is_Some (heap g !! a)
  else GetInstance g = Panics (Go.Str "logger not initialized") g.
Proof.
  intros H.
  pose proof (history_once _ _ _ H) as Ho. simpl in Ho.
  destruct (history_consistent _ _ _ initial_consistent H) as [_ Hi].
  unfold GetInstance.
  destruct (calls_Init cs), (instance g) as [a|] eqn:Ha; try congruence.
  - destruct Hi as [_ HL]. exists a. repeat split; auto.
    intros conf. rewrite (Init_again _ _ Ho). now rewrite Ha.
  - destruct Hi. congruence.
Qed.


Lemma lookup_new (h : list Logger) (X : Logger) :
  (h ++ [X]) !! length h = Some X.
Proof. apply list_lookup_middle. reflexivity. Qed.

Lemma fresh_address (h : list Logger) (L : Logger) (a : nat) :
  h !! a = Some L -> Some (length h) <> Some a.
Proof.
  intros H E. apply lookup_lt_Some in H. injection E as E. lia.
Qed.

(** What a derivation that allocates does. *)
Lemma derive_alloc (f : Logger -> slog.Logger) g a L :
  mutex g = false ->
  heap g !! a = Some L ->
  locked (bind (deref (Some a))
            (fun L => alloc {| slog := f L; handler := handler L |})) g =
    Returns (Some (length (heap g)))
      (set_heap (heap g ++ [{| slog := f L; handler := handler L |}]) g).
Proof.
  intros Hm Ha. unfold locked, bind, deref, alloc. rewrite Hm. simpl.
  rewrite Ha. destruct g; simpl in *. now subst.
Qed.

Lemma WithContext_cases l ctx g :
  mutex g = false ->
  WithContext l ctx g =
    match context_attrs ctx with
    | [] => Returns l g
    | _ :: _ =>
        locked (bind (deref l)
                  (fun L => alloc {| slog := slog.With (context_attrs ctx) (slog L);
                                     handler := handler L |})) g
    end.
Proof.
  intros Hm. unfold WithContext.
  destruct (context_attrs ctx) as [|x xs] eqn:E; simpl.
  - unfold locked, ret. rewrite Hm. destruct g; simpl in *. now subst.
  - reflexivity.
Qed.

(** C8. With neither a string under "request_id" nor an int under
    "user_id" in the context, [WithContext] returns the pointer it was
    called on and allocates nothing.  With at least one of them, it
    returns a new pointer, to a logger whose slog logger is the
    receiver's with one more layer of attributes: the request
    identifier if it is there, then the user identifier if it is
    there. *)
Theorem WithContext_attributes g a L ctx :
  mutex g = false ->
  heap g !! a = Some L ->
  let req := Go.assert_string (Go.Value ctx (Go.Str "request_id")) in
  let uid := Go.assert_int (Go.Value ctx (Go.Str "user_id")) in
  let present :=
    match req with Some r => [Go.Str "request_id"; Go.Str r] | None => [] end ++
    match uid with Some u => [Go.Str "user_id"; Go.Int u] | None => [] end in
  (req = None /\ uid = None ->
   forall l, WithContext l ctx g = Returns l g) /\
  (req <> None \/ uid <> None ->
   exists l' g' L',
     WithContext (Some a) ctx g = Returns l' g' /\
     l' <> Some a /\
     deref l' g' = Returns L' g' /\
     handler L' = handler L /\
     slog L' =
       {| slog.base := slog.base (slog L);
          slog.scopes := slog.scopes (slog L) ++ [slog.Attrs present] |}).
Proof.
  intros Hm Ha req uid present. split.
  - intros [Hr Hu] l. rewrite (WithContext_cases _ _ _ Hm).
    unfold context_attrs. fold req uid. now rewrite Hr, Hu.
  - intros Hsome.
    assert (Hattrs : context_attrs ctx = present /\ present <> []).
    { unfold context_attrs, present. fold req uid.
      destruct req, uid; simpl; split; try congruence.
      destruct Hsome; congruence. }
    destruct Hattrs as [Hc Hne].
    rewrite (WithContext_cases _ _ _ Hm).
    destruct (context_attrs ctx) as [|x xs] eqn:E; [congruence|].
    rewrite <- E.
    rewrite (derive_alloc (fun L => slog.With (context_attrs ctx) (slog L))
               _ _ _ Hm Ha).
    eexists _, _, {| slog := slog.With (context_attrs ctx) (slog L);
                     handler := handler L |}.
    split; [reflexivity|]. repeat split.
    + eapply fresh_address; eauto.
    + unfold deref. simpl. now rewrite lookup_new.
    + simpl. rewrite E, <- Hc. reflexivity.
Qed.


(** *** What [Init] builds *)

Lemma Init_builds conf g :
  once g = false ->
  exists g',
    Init conf g = Returns (Some (length (heap g))) g' /\
    heap g' = heap g ++ [build conf] /\
    heap g' !! length (heap g) = Some (build conf).
Proof.
  intros Hg. rewrite (Init_first _ _ Hg). eexists. split; [reflexivity|].
  simpl. split; [reflexivity | apply lookup_new].
Qed.

Lemma build_handler conf :
  handler (build conf) = new_handler (effective conf) /\
  slog (build conf) = slog.New (new_handler (effective conf)).
Proof. now split. Qed.

Lemma new_handler_output c : slog.output (new_handler c) = Output c.
Proof. unfold new_handler. now destruct (decide _). Qed.

(** X1. The handler of the logger the first [Init] builds always has
    an output: the file of the configuration when it names one, and
    standard output when the configuration is nil or names none. *)
Theorem Init_output conf g :
  once g = false ->
  exists a g' L,
    Init conf g = Returns (Some a) g' /\
    heap g' !! a = Some L /\
    slog.output (handler L) <> None /\
    slog.output (handler L) =
      match conf with
      | Some c => match Output c with Some f => Some f | None => Go.Stdout end
      | None => Go.Stdout
      end.
Proof.
  intros Hg. destruct (Init_builds conf g Hg) as (g' & HI & _ & HL).
  exists (length (heap g)), g', (build conf).
  split; [exact HI|]. split; [exact HL|].
  destruct (build_handler conf) as [-> _]. rewrite new_handler_output.
  unfold effective, with_output.
  destruct conf as [[lv fm src [f|] tf]|]; simpl; split;
    try discriminate; reflexivity.
Qed.

(** X2. The logger the first [Init] builds has a JSON handler exactly
    when the format of the configuration is "json", and a text handler
    for every other format and for a nil configuration; the handler has
    the level and the source flag of the configuration, and replaces
    the time attribute exactly when the time format is not empty; the
    slog logger is a new one on that handler. *)
Theorem Init_handler conf g :
  once g = false ->
  let c := match conf with Some c => c | None => default_config end in
  exists a g' L,
    Init conf g = Returns (Some a) g' /\
    heap g' !! a = Some L /\
    slog L = slog.New (handler L) /\
    (slog.kind (handler L) = slog.JSONHandler <-> Format c = "json") /\
    (slog.kind (handler L) = slog.TextHandler <-> Format c <> "json") /\
    slog.Level (slog.options (handler L)) = Level c /\
    slog.AddSource (slog.options (handler L)) = AddSource c /\
    (slog.ReplaceAttr (slog.options (handler L)) = None <-> TimeFormat c = "") /\
    (TimeFormat c <> "" ->
     slog.ReplaceAttr (slog.options (handler L)) = Some (TimeFormat c)).
Proof.
  intros Hg c. destruct (Init_builds conf g Hg) as (g' & HI & _ & HL).
  exists (length (heap g)), g', (build conf).
  split; [exact HI|]. split; [exact HL|]. split; [reflexivity|].
  assert (Hc : effective conf =
               with_output c) by (unfold effective, c; now destruct conf).
  destruct (build_handler conf) as [-> _]. rewrite Hc.
  assert (Hf : forall x, Format (with_output x) = Format x /\
                         Level (with_output x) = Level x /\
                         AddSource (with_output x) = AddSource x /\
                         TimeFormat (with_output x) = TimeFormat x)
    by (intros x; unfold with_output; now destruct (Output x)).
  destruct (Hf c) as (Hfm & Hlv & Hsrc & Htf).
  unfold new_handler, handler_options. rewrite Hfm, Hlv, Hsrc, Htf.
  destruct (decide (Format c = "json")) as [Hj|Hj];
    destruct (decide (TimeFormat c = "")) as [Ht|Ht]; simpl;
    repeat split; try congruence; try discriminate; auto;
    intros; try congruence; try discriminate.
Qed.

(** *** One handler for every logger *)

Lemma slog_With_base args l : slog.base (slog.With args l) = slog.base l.
Proof. unfold slog.With. now destruct args. Qed.

Lemma slog_WithGroup_base name l :
  slog.base (slog.WithGroup name l) = slog.base l.
Proof. unfold slog.WithGroup. now destruct (decide _). Qed.

Lemma shares_lookup h g a L :
  shares h g -> heap g !! a = Some L ->
  handler L = h /\ slog.base (slog L) = h.
Proof. intros Hs Ha. exact (Forall_lookup_1 _ _ _ _ Hs Ha). Qed.

Lemma shares_alloc h g L X :
  shares h g -> handler X = h -> slog.base (slog X) = h ->
  shares h (set_heap (heap g ++ [X]) L).
Proof.
  intros Hs H1 H2. unfold shares. simpl. apply Forall_app. split; [exact Hs|].
  constructor; [now split | constructor].
Qed.

Lemma perform_shares h c g g' :
  once g = true -> shares h g -> perform c g = Some g' -> shares h g'.
Proof.
  intros Ho Hs H.
  destruct c; unfold_calls; rewrite ?Ho in H; split_matches; simplify_eq;
    try exact Hs;
    match goal with
    | Ha : heap ?g0 !! ?a = Some ?L |- _ =>
        assert (HL : handler L = h /\ slog.base (slog L) = h)
          by (apply (shares_lookup h g a L Hs); exact Ha);
        destruct HL as [H1 H2];
        apply (shares_alloc h g); simpl;
        rewrite ?slog_With_base, ?slog_WithGroup_base; auto
    end.
Qed.

Lemma history_shares h cs :
  forall g g',
    once g = true -> shares h g -> history cs g = Some g' -> shares h g'.
Proof.
  induction cs as [|c cs IH]; simpl; intros g g' Ho Hs H.
  - now simplify_eq.
  - destruct (perform c g) as [g1|] eqn:Hc; [|discriminate].
    apply (IH g1 g'); auto.
    + rewrite (perform_once _ _ _ Hc), Ho. reflexivity.
    + eapply perform_shares; eauto.
Qed.

Lemma Init_initial conf :
  Init conf initial =
    Returns (Some 0%nat) (set_once true (construct conf initial)) /\
  shares (new_handler (effective conf))
    (set_once true (construct conf initial)).
Proof.
  split; [reflexivity|]. unfold shares. simpl.
  constructor; [now split | constructor].
Qed.

(** X3. In a process that starts with [Init], whatever the client calls
    afterwards, every logger there is has the handler that [Init]
    built from the first configuration: in its [handler] field, which
    [Handler()] returns, and under its slog logger. *)
Theorem loggers_share_handler first cs p g1 g a L :
  Init first initial = Returns p g1 ->
  history cs g1 = Some g ->
  heap g !! a = Some L ->
  handler L = new_handler (effective first) /\
  slog.base (slog L) = new_handler (effective first) /\
  Handler (Some a) g = Returns (new_handler (effective first)) g.
Proof.
  intros HI Hcs Ha. destruct (Init_initial first) as [E Hs].
  rewrite E in HI. simplify_eq.
  assert (Hg : shares (new_handler (effective first)) g)
    by (eapply history_shares; [| exact Hs | exact Hcs]; reflexivity).
  destruct (shares_lookup _ _ _ _ Hg Ha) as [H1 H2].
  repeat split; auto.
  unfold Handler, bind, deref, ret. now rewrite Ha, H1.
Qed.

(** *** Logging *)

Lemma emit_valid lvl a L msg args g :
  heap g !! a = Some L ->
  emit lvl (Some a) msg args g =
    Returns tt (set_records (records g ++ [record_of L lvl msg args]) g).
Proof. intros Ha. unfold emit, bind, deref. now rewrite Ha. Qed.






(** *** The lock *)

Lemma deref_cases l g :
  (exists L, deref l g = Returns L g) \/ deref l g = Panics nil_dereference g.
Proof.
  unfold deref. destruct l as [a|]; [|now right].
  destruct (heap g !! a) as [L|]; [left; now exists L | now right].
Qed.

(** X7. When the lock is free, no call on the package or on a logger
    waits for it, and the lock is free again when the call has
    returned or panicked, also when [With], [WithGroup],
    [WithContext] or [SetDefault] panic on a nil logger; the only call
    after which the client does not go on is a [Fatal] on a logger
    that exists. *)
Theorem lock_released c g :
  mutex g = false ->
  match perform c g with
  | Some g' => mutex g' = false
  | None =>
      exists l msg args L,
        c = CallFatal l msg args /\ deref l g = Returns L g
  end.
Proof.
  intros Hm.
  destruct (perform c g) as [g'|] eqn:H.
  - destruct (perform_extends _ _ _ H) as (_ & Hmu & _). congruence.
  - destruct c;
      try (exfalso; unfold_calls; rewrite ?Hm in H; split_matches;
           discriminate).
    exists l, msg, args.
    unfold perform, after, Fatal, emit, bind in H.
    destruct (deref_cases l g) as [[L Hd]|Hd]; rewrite Hd in H.
    + now exists L.
    + discriminate.
Qed.

(** X8. On a nil logger, with the lock free, [With], [WithGroup],
    [SetDefault], [Handler] and the levelled methods panic with a nil
    dereference and leave the package as it was, the lock free;
    [WithContext] does so too when the context has a request or a user
    identifier. *)
Theorem nil_logger_panics g args name msg ctx lvl :
  mutex g = false ->
  With None args g = Panics nil_dereference g /\
  WithGroup None name g = Panics nil_dereference g /\
  SetDefault None g = Panics nil_dereference g /\
  Handler None g = Panics nil_dereference g /\
  emit lvl None msg args g = Panics nil_dereference g /\
  (context_attrs ctx <> [] ->
   WithContext None ctx g = Panics nil_dereference g).
Proof.
  intros Hm.
  unfold With, WithGroup, SetDefault, Handler, emit, WithContext, locked,
    bind, deref, set_mutex.
  destruct g as [ins on mu hp df rs]. simpl in *. subst mu. repeat split.
  intros Hne. now destruct (context_attrs ctx).
Qed.

(** X9. [With] without arguments and [WithGroup] with the empty name
    still allocate: they return a new pointer, to a logger equal to
    the receiver. *)
Theorem With_nothing_copies g a L :
  mutex g = false ->
  heap g !! a = Some L ->
  With (Some a) [] g =
    Returns (Some (length (heap g))) (set_heap (heap g ++ [L]) g) /\
  WithGroup (Some a) "" g =
    Returns (Some (length (heap g))) (set_heap (heap g ++ [L]) g) /\
  Some (length (heap g)) <> Some a.
Proof.
  intros Hm Ha. unfold With, WithGroup.
  rewrite (derive_alloc (fun L => slog.With [] (slog L)) _ _ _ Hm Ha).
  rewrite (derive_alloc (fun L => slog.WithGroup "" (slog L)) _ _ _ Hm Ha).
  destruct L as [sl h]. simpl. repeat split.
  eapply fresh_address; eauto.
Qed.

(** *** The default logger of slog *)

Lemma perform_default c g g' :
  perform c g = Some g' ->
  default g' = default g \/
  exists a L,
    c = CallSetDefault (Some a) /\ heap g' !! a = Some L /\
    default g' = Some (slog L).
Proof.
  intros H. destruct c; unfold_calls; split_matches; simplify_eq; simpl;
    auto.
  right. eexists _, _. split; [reflexivity|]. split; [eassumption|reflexivity].
Qed.

Lemma history_default cs :
  forall g g',
    history cs g = Some g' ->
    default g' = default g \/
    exists a L,
      In (CallSetDefault (Some a)) cs /\ heap g' !! a = Some L /\
      default g' = Some (slog L).
Proof.
  induction cs as [|c cs IH]; simpl; intros g g' H.
  - simplify_eq. now left.
  - destruct (perform c g) as [g1|] eqn:Hc; [|discriminate].
    destruct (IH _ _ H) as [Hd|(a & L & Hin & Ha & Hd)].
    + destruct (perform_default _ _ _ Hc) as [Hd1|(a & L & -> & Ha & Hd1)].
      * left. congruence.
      * right. exists a, L. split; [now left|]. split; [|congruence].
        eapply extends_lookup; [eapply history_extends|]; eauto.
    + right. exists a, L. split; [now right|]. auto.
Qed.

(** X20. [Init] does not make its logger the default of slog: in a
    process that starts without one, the default is unset until the
    client calls [SetDefault] on a logger that exists, and it is then
    the slog logger of a logger [SetDefault] was called on.
    [SetDefault] on a logger that exists sets it and changes nothing
    else. *)
Theorem default_only_by_SetDefault cs g :
  history cs initial = Some g ->
  match default g with
  | None => True
  | Some sl =>
      exists a L,
        In (CallSetDefault (Some a)) cs /\ heap g !! a = Some L /\ sl = slog L
  end /\
  (forall a L,
      heap g !! a = Some L ->
      SetDefault (Some a) g = Returns tt (set_default (Some (slog L)) g)).
Proof.
  intros H. split.
  - destruct (history_default _ _ _ H) as [Hd|(a & L & Hin & Ha & Hd)].
    + now rewrite Hd.
    + rewrite Hd. now exists a, L.
  - intros a L Ha.
    destruct (history_consistent _ _ _ initial_consistent H) as [Hm _].
    unfold SetDefault, locked, bind, deref. rewrite Hm. simpl. rewrite Ha.
    destruct g; simpl in *. now subst.
Qed.

End LoggerFacts.

(* ================================================================== *)
(** * Properties of package workerpool *)

Section Registration.

Import workerpool.

Lemma NewWorkerPool_fields g wp g' :
  NewWorkerPool g = logger.Returns wp g' ->
  workers wp = [] /\ done wp = None /\ wg wp = 0 /\ cancel wp = false /\
  logger.records g' = logger.records g /\
  exists a, logger wp = Some a /\ is_Some (logger.heap g' !! a).
Proof.
  unfold NewWorkerPool, logger.bind, logger.GetInstance, logger.WithGroup,
    logger.locked, logger.bind, logger.deref, logger.alloc, logger.ret.
  intros H.
  destruct (logger.instance g) as [a|]; [|discriminate].
  destruct (logger.mutex g); [discriminate|]. simpl in H.
  destruct (logger.heap g !! a) as [L|] eqn:Ha; [|discriminate].
  simpl in H. injection H as <- <-. simpl. repeat split.
  eexists. split; [reflexivity|]. eexists. apply list_lookup_middle. reflexivity.
Qed.

Lemma Register_nil wp : Register None wp = wp.
Proof. reflexivity. Qed.

Lemma Register_non_nil w wp :
  workers (Register (Some w) wp) = workers wp ++ [Some w].
Proof. reflexivity. Qed.

Lemma Register_workers w wp :
  workers (Register w wp) = workers wp ++ List.filter non_nil [w].
Proof. destruct w; simpl; [reflexivity | now rewrite app_nil_r]. Qed.

Lemma registers_workers ws :
  forall wp, workers (registers ws wp) = workers wp ++ List.filter non_nil ws.
Proof.
  unfold registers.
  induction ws as [|w ws IH]; intros wp; simpl.
  - now rewrite app_nil_r.
  - rewrite IH, Register_workers. destruct w; simpl.
    + now rewrite <- app_assoc.
    + now rewrite app_nil_r.
Qed.

Lemma registers_frame ws :
  forall wp,
    done (registers ws wp) = done wp /\ wg (registers ws wp) = wg wp /\
    logger (registers ws wp) = logger wp.
Proof.
  unfold registers.
  induction ws as [|w ws IH]; intros wp; simpl; [auto|].
  destruct (IH (Register w wp)) as (-> & -> & ->). now destruct w.
Qed.

Lemma filter_non_nil_length ws :
  length (List.filter non_nil ws) = non_nil_calls ws.
Proof.
  induction ws as [|[w|] ws IH]; simpl; auto.
Qed.

(** C4. On a new pool, [Register] with nil changes nothing and
    [Register] with a worker puts it at the end; after a sequence of
    calls the list holds the workers that were not nil, in the order
    of the calls, and is as long as the number of such calls. *)
Theorem Register_sequence g wp g' ws :
  NewWorkerPool g = logger.Returns wp g' ->
  workers wp = [] /\
  (forall p, Register None p = p) /\
  (forall w p, workers (Register (Some w) p) = workers p ++ [Some w]) /\
  workers (registers ws wp) = List.filter non_nil ws /\
  length (workers (registers ws wp)) = non_nil_calls ws.
Proof.
  intros H. destruct (NewWorkerPool_fields _ _ _ H) as [Hw _].
  repeat split; auto.
  - now rewrite registers_workers, Hw.
  - rewrite registers_workers, Hw. simpl. apply filter_non_nil_length.
Qed.

(** C5, as the code has it. [Register] does not look for the worker in
    the list: a worker that is not nil goes to the end whether it is
    in the list or not, so that registering a worker that is in the
    list leaves a list with that worker twice; only nil is left out. *)
Theorem Register_keeps_duplicates w wp :
  workers (Register (Some w) wp) = workers wp ++ [Some w] /\
  length (workers (Register (Some w) wp)) = S (length (workers wp)) /\
  (In (Some w) (workers wp) ->
   ~ List.NoDup (workers (Register (Some w) wp))) /\
  Register None wp = wp.
Proof.
  repeat split.
  - rewrite Register_non_nil, length_app. simpl. lia.
  - intros Hin Hnd. rewrite Register_non_nil in Hnd.
    apply List.NoDup_remove_2 in Hnd. rewrite app_nil_r in Hnd.
    contradiction.
Qed.

Lemma NewWorkerPool_early g :
  logger.instance g = None ->
  NewWorkerPool g = logger.Panics (Go.Str "logger not initialized") g.
Proof.
  intros Ha. unfold NewWorkerPool, logger.bind, logger.GetInstance.
  now rewrite Ha.
Qed.

Lemma NewWorkerPool_ready g a L :
  logger.mutex g = false ->
  logger.instance g = Some a ->
  logger.heap g !! a = Some L ->
  NewWorkerPool g =
    logger.Returns (new_pool (length (logger.heap g)))
      (logger.set_heap
         (logger.heap g ++
            [{| logger.slog := slog.WithGroup "worker pool" (logger.slog L);
                logger.handler := logger.handler L |}]) g).
Proof.
  intros Hm Ha HL. unfold NewWorkerPool, logger.GetInstance, logger.WithGroup.
  unfold logger.bind at 1 2. rewrite Ha.
  now rewrite (derive_alloc (fun L => slog.WithGroup "worker pool" (logger.slog L))
                 _ _ _ Hm HL).
Qed.

(** X10. [NewWorkerPool] in a process that has not called [Init]
    panics with "logger not initialized" and changes nothing.  Once
    [Init] has been called it returns a pool that is not cancelled,
    with the wait group at zero, no workers and a nil [done], and
    allocates one logger for it: the singleton's handler, and the
    singleton's slog logger with the group "worker pool". *)
Theorem NewWorkerPool_needs_Init cs g :
  logger.history cs logger.initial = Some g ->
  if logger.calls_Init cs
  then exists a L,
      logger.instance g = Some a /\
      logger.heap g !! a = Some L /\
      NewWorkerPool g =
        logger.Returns (new_pool (length (logger.heap g)))
          (logger.set_heap
             (logger.heap g ++
                [{| logger.slog := slog.WithGroup "worker pool" (logger.slog L);
                    logger.handler := logger.handler L |}]) g)
  else NewWorkerPool g = logger.Panics (Go.Str "logger not initialized") g.
Proof.
  intros H.
  pose proof (history_once _ _ _ H) as Ho. simpl in Ho.
  destruct (history_consistent _ _ _ initial_consistent H) as [Hm Hi].
  destruct (logger.calls_Init cs), (logger.instance g) as [a|] eqn:Ha;
    try congruence.
  - destruct Hi as [_ [L HL]]. exists a, L. repeat split; auto.
    now apply (NewWorkerPool_ready g a L).
  - destruct Hi. congruence.
  - now apply NewWorkerPool_early.
Qed.

End Registration.

Section Runs.

Import workerpool.

(** An invariant of every step holds along every run. *)
Lemma exec_invariant (P : System -> Prop) :
  (forall a s s', P s -> step a s = Some s' -> P s') ->
  forall acts s s', P s -> exec acts s = Some s' -> P s'.
Proof.
  intros Hstep. induction acts as [|a acts IH]; simpl; intros s s' Hs H.
  - now simplify_eq.
  - destruct (step a s) as [s1|] eqn:Ha; [|discriminate]. eauto.
Qed.

Lemma exec_app acts1 :
  forall acts2 s,
    exec (acts1 ++ acts2) s =
      match exec acts1 s with Some s1 => exec acts2 s1 | None => None end.
Proof.
  induction acts1 as [|a acts1 IH]; simpl; intros acts2 s; [reflexivity|].
  destruct (step a s); auto.
Qed.

(** What a levelled call on the pool's logger can do. *)
Lemma emit_cases lvl l msg args g :
  (exists L,
      logger.emit lvl l msg args g =
        logger.Returns tt
          (logger.set_records
             (logger.records g ++
                [{| slog.via := logger.slog L; slog.level := lvl;
                    slog.message := msg; slog.arguments := args |}]) g)) \/
  logger.emit lvl l msg args g = logger.Panics logger.nil_dereference g.
Proof.
  unfold logger.emit, logger.bind, logger.deref.
  destruct l as [a|]; [|now right].
  destruct (logger.heap g !! a) as [L|]; [left; now exists L | now right].
Qed.

Lemma emit_ok lvl a msg args g :
  is_Some (logger.heap g !! a) ->
  exists L,
    logger.emit lvl (Some a) msg args g =
      logger.Returns tt
        (logger.set_records
           (logger.records g ++
              [{| slog.via := logger.slog L; slog.level := lvl;
                  slog.message := msg; slog.arguments := args |}]) g).
Proof.
  intros [L HL]. exists L. unfold logger.emit, logger.bind, logger.deref.
  now rewrite HL.
Qed.

Lemma Panic_cases l msg args g :
  (exists L,
      logger.Panic l msg args g =
        logger.Panics (Go.Str msg)
          (logger.set_records
             (logger.records g ++
                [{| slog.via := logger.slog L; slog.level := slog.LevelError;
                    slog.message := msg; slog.arguments := args |}]) g)) \/
  logger.Panic l msg args g = logger.Panics logger.nil_dereference g.
Proof.
  unfold logger.Panic, logger.bind, logger.panic.
  destruct (emit_cases slog.LevelError l msg args g) as [[L H]|H]; rewrite H.
  - left. now exists L.
  - now right.
Qed.

Lemma set_pc_units i p s u :
  units s !! i = Some u ->
  units (set_pc i p s) = <[i := {| worker := worker u; pc := p |}]> (units s).
Proof. intros H. unfold set_pc. now rewrite H. Qed.

Lemma set_pc_frame i p s :
  globals (set_pc i p s) = globals s /\ pool (set_pc i p s) = pool s /\
  start (set_pc i p s) = start s /\ close (set_pc i p s) = close s /\
  halted (set_pc i p s) = halted s.
Proof. unfold set_pc. now destruct (units s !! i). Qed.

Lemma set_pc_lookup i p s j u :
  units (set_pc i p s) !! j = Some u ->
  units s !! j = Some u \/
  (i = j /\ pc u = p /\ exists u0, units s !! i = Some u0 /\ worker u = worker u0).
Proof.
  unfold set_pc. destruct (units s !! i) as [u0|] eqn:Hi; [|auto].
  simpl. destruct (decide (i = j)) as [->|Hne].
  - rewrite list_lookup_insert_eq by (eapply lookup_lt_Some; eauto).
    intros [= <-]. right. simpl. eauto.
  - rewrite list_lookup_insert_ne by assumption. auto.
Qed.

Lemma set_pc_globals i p s : globals (set_pc i p s) = globals s.
Proof. apply set_pc_frame. Qed.

Lemma set_pc_pool i p s : pool (set_pc i p s) = pool s.
Proof. apply set_pc_frame. Qed.

Lemma set_pc_start i p s : start (set_pc i p s) = start s.
Proof. apply set_pc_frame. Qed.

Lemma set_pc_close i p s : close (set_pc i p s) = close s.
Proof. apply set_pc_frame. Qed.

Lemma set_pc_halted i p s : halted (set_pc i p s) = halted s.
Proof. apply set_pc_frame. Qed.

Create Rewrite HintDb pool_frame.
#[local] Hint Rewrite set_pc_globals set_pc_pool set_pc_start set_pc_close
  set_pc_halted : pool_frame.

(** The cases of a step, one per statement that can run. *)
Ltac step_cases H :=
  unfold step in H;
  match type of H with
  | context [halted ?s] => destruct (halted s) eqn:?; [discriminate|]
  end;
  match type of H with
  | context [match ?a with CallRegister _ => _ | _ => _ end] => destruct a
  end;
  unfold step_Start, step_Close, log_Close, step_Handoff, step_unit,
    logger.Info, logger.Error in H;
  repeat match type of H with
    | context [logger.emit ?lvl ?l ?m ?x ?g] =>
        destruct (emit_cases lvl l m x g) as [[? ?E]|?E];
        rewrite E in H; clear E
    | context [logger.Panic ?l ?m ?x ?g] =>
        destruct (Panic_cases l m x g) as [[? ?E]|?E];
        rewrite E in H; clear E
    | context [match ?x with _ => _ end] => destruct x eqn:?
    end;
  simplify_eq; simpl in *; autorewrite with pool_frame in *; simpl in *.

Lemma not_closed_logged_app g r :
  ~ Exists (fun r => slog.message r = "worker pool closed") (logger.records g) ->
  slog.message r <> "worker pool closed" ->
  ~ Exists (fun r => slog.message r = "worker pool closed")
      (logger.records g ++ [r]).
Proof.
  intros Hg Hr H. apply Exists_app in H as [H|H]; [auto|].
  apply Exists_cons in H as [H|H]; [auto|]. now apply Exists_nil in H.
Qed.

Lemma Register_done w wp : done (Register w wp) = done wp.
Proof. now destruct w. Qed.

Lemma step_nil_channel a s s' :
  nil_channel s -> step a s = Some s' -> nil_channel s'.
Proof.
  unfold nil_channel, closed_logged.
  intros (Hd & Hs & Hc1 & Hc2 & Hlog) H.
  step_cases H; rewrite ?Register_done;
    repeat split; try congruence; auto;
    try (apply not_closed_logged_app; [assumption | discriminate]).
Qed.

Lemma step_done a s s' :
  step a s = Some s' -> done (pool s') = done (pool s).
Proof.
  intros H. step_cases H; rewrite ?Register_done; congruence.
Qed.

(** A program that sets the pool up always gets one, with a nil
    channel, a wait group at zero, the workers that were not nil, a
    logger that exists, and nothing logged yet. *)
Lemma setup_returns conf ws :
  exists wp g,
    setup conf ws = logger.Returns wp g /\
    done wp = None /\ wg wp = 0 /\
    workers wp = List.filter non_nil ws /\
    logger.records g = [] /\
    exists a, logger wp = Some a /\ is_Some (logger.heap g !! a).
Proof.
  unfold setup. unfold logger.bind at 1.
  rewrite (Init_first conf logger.initial eq_refl).
  unfold logger.bind.
  destruct (NewWorkerPool
              (logger.set_once true (logger.construct conf logger.initial)))
    as [wp g| | |] eqn:E; try (now vm_compute in E).
  destruct (NewWorkerPool_fields _ _ _ E) as (Hw & Hd & Hwg & _ & Hr & Hl).
  destruct (registers_frame ws wp) as (Hd' & Hwg' & Hl').
  exists (registers ws wp), g. unfold logger.ret. repeat split.
  - congruence.
  - congruence.
  - now rewrite registers_workers, Hw.
  - exact Hr.
  - now rewrite Hl'.
Qed.

Lemma boot_nil_channel conf ws wp g :
  setup conf ws = logger.Returns wp g -> nil_channel (boot g wp).
Proof.
  intros H. destruct (setup_returns conf ws) as (wp' & g' & H' & Hd & _ & _ & Hr & _).
  rewrite H in H'. simplify_eq.
  unfold nil_channel, closed_logged. simpl. repeat split; try congruence.
  rewrite Hr. intros Hx. now apply Exists_nil in Hx.
Qed.

Lemma run_reachable conf ws acts s :
  run conf ws acts = Some s -> reachable conf ws s.
Proof.
  unfold run, reachable. intros H.
  destruct (setup conf ws) as [wp g| | |] eqn:E; try discriminate.
  now exists wp, g, acts.
Qed.

Lemma reachable_nil_channel conf ws s : reachable conf ws s -> nil_channel s.
Proof.
  intros (wp & g & acts & Hsetup & Hexec).
  eapply (exec_invariant nil_channel); eauto using step_nil_channel.
  eapply boot_nil_channel; eauto.
Qed.

(** C1, on the code. In every run of a pool that [NewWorkerPool]
    built, whatever was registered, [done] is nil and [Start] has not
    returned; once [Start] is at the send on [done], every step of
    the program leaves it there. *)
Theorem Start_never_returns conf ws s :
  reachable conf ws s ->
  done (pool s) = None /\
  start s <> StartReturned /\
  (start s = StartSend ->
   forall a s', step a s = Some s' -> start s' = StartSend).
Proof.
  intros Hr. destruct (reachable_nil_channel _ _ _ Hr) as (Hd & Hs & _).
  repeat split; auto.
  intros Hsend a s' H. step_cases H; congruence.
Qed.

(** C3, on the code. In every run of a pool that [NewWorkerPool]
    built, [Close] has neither returned nor reached its second log
    call, no record "worker pool closed" exists, and once [Close] is at
    the receive from [done], every step of the program leaves it
    there. *)
Theorem Close_never_completes conf ws s :
  reachable conf ws s ->
  close s <> CloseLogClosed /\
  close s <> CloseReturned /\
  ~ closed_logged s /\
  (close s = CloseReceive ->
   forall a s', step a s = Some s' -> close s' = CloseReceive).
Proof.
  intros Hr. destruct (reachable_nil_channel _ _ _ Hr) as (Hd & _ & H1 & H2 & H3).
  repeat split; auto.
  intros Hrecv a s' H. step_cases H; congruence.
Qed.

Lemma step_workers_non_nil a s s' :
  Forall (fun w => w <> None) (workers (pool s)) ->
  step a s = Some s' ->
  Forall (fun w => w <> None) (workers (pool s')).
Proof.
  intros Hw H. step_cases H; auto.
  destruct w; simpl; auto.
  apply Forall_app. split; auto.
Qed.

Lemma step_workers a s s' :
  step a s = Some s' ->
  workers (pool s') = workers (pool s) \/
  exists w, a = CallRegister (Some w) /\
            workers (pool s') = workers (pool s) ++ [Some w].
Proof.
  intros H. step_cases H; auto.
  destruct w as [w|]; simpl; [right; now exists w | now left].
Qed.

(** C10. [NewWorkerPool] builds the pool with an empty list of
    workers; in every run of such a pool, through any calls of
    [Register], [Start] and [Close] and any steps of the goroutines,
    no entry of the list is nil, and a step changes the list only if
    it is a call of [Register] with a worker that is not nil, which
    it puts at the end. *)
Theorem workers_never_nil conf ws s :
  reachable conf ws s ->
  (forall g wp g', NewWorkerPool g = logger.Returns wp g' -> workers wp = []) /\
  Forall (fun w => w <> None) (workers (pool s)) /\
  (forall a s',
      step a s = Some s' ->
      workers (pool s') = workers (pool s) \/
      exists w, a = CallRegister (Some w) /\
                workers (pool s') = workers (pool s) ++ [Some w]).
Proof.
  intros (wp & g & acts & Hsetup & Hexec). split; [|split].
  - intros g0 wp0 g0' H0. now destruct (NewWorkerPool_fields _ _ _ H0).
  - eapply (exec_invariant
              (fun s => Forall (fun w => w <> None) (workers (pool s))));
      eauto using step_workers_non_nil.
    destruct (setup_returns conf ws) as (wp' & g' & H' & _ & _ & Hw & _).
    rewrite Hsetup in H'. simplify_eq. simpl. rewrite Hw.
    clear. induction ws as [|[w|] ws IH]; simpl; auto.
  - intros a s'. apply step_workers.
Qed.

Lemma Register_logger w wp : logger (Register w wp) = logger wp.
Proof. now destruct w. Qed.

Lemma step_logger_ok a s s' : logger_ok s -> step a s = Some s' -> logger_ok s'.
Proof.
  unfold logger_ok. intros (l & Hl & HL) H.
  step_cases H; rewrite ?Register_logger; exists l; split; auto.
Qed.

Lemma boot_logger_ok conf ws wp g :
  setup conf ws = logger.Returns wp g -> logger_ok (boot g wp).
Proof.
  intros H. destruct (setup_returns conf ws) as (wp' & g' & H' & _ & _ & _ & _ & Hl).
  rewrite H in H'. now simplify_eq.
Qed.

Lemma reachable_logger_ok conf ws s : reachable conf ws s -> logger_ok s.
Proof.
  intros (wp & g & acts & Hsetup & Hexec).
  eapply (exec_invariant logger_ok); eauto using step_logger_ok.
  eapply boot_logger_ok; eauto.
Qed.

Lemma Panic_ok a msg args g :
  is_Some (logger.heap g !! a) ->
  exists g',
    logger.Panic (Some a) msg args g = logger.Panics (Go.Str msg) g' /\
    logger.heap g' = logger.heap g.
Proof.
  intros HL. destruct (emit_ok slog.LevelError a msg args g HL) as [L E].
  unfold logger.Panic, logger.bind, logger.panic. rewrite E.
  eexists. split; reflexivity.
Qed.

Lemma lookup_spawned (us : list goroutine) (w : IWorker) (j : nat) (u : goroutine) :
  (us ++ [{| worker := w; pc := UnitProcess |}]) !! j = Some u ->
  us !! j = Some u \/ pc u = UnitProcess.
Proof.
  intros H. apply lookup_app_Some in H as [H|[_ H]]; [now left|right].
  destruct (j - length us)%nat; simpl in H; [|discriminate].
  now simplify_eq.
Qed.

Lemma step_panics_escape a s s' :
  logger_ok s /\ panics_escape s ->
  step a s = Some s' ->
  logger_ok s' /\ panics_escape s'.
Proof.
  intros [Hok Hinv] H. split; [eapply step_logger_ok; eauto|].
  destruct Hok as (l & Hl & HL).
  unfold panics_escape, panic_path in *.
  unfold step in H. destruct (halted s) eqn:Hh; [discriminate|].
  assert (Hold : forall j u w v h,
             units s !! j = Some u -> worker u = Some w ->
             Process w = PanicsWith v ->
             pc u = UnitProcess \/ pc u = UnitDeferred (Some v) \/
             pc u = UnitLogPanic v \/
             pc u = UnitDead (Go.Str "panic: %v") /\ h = Some (Crash (Go.Str "panic: %v"))).
  { intros j u w v h Hu Hw Hp.
    destruct (Hinv _ _ _ _ Hu Hw Hp) as [?|[?|[?|[_ ?]]]]; auto; congruence. }
  destruct a; simpl in H.
  - simplify_eq. simpl. intros; eapply Hold; eauto.
  - destruct (start s); simplify_eq. simpl. intros; eapply Hold; eauto.
  - destruct (close s); simplify_eq. simpl. intros; eapply Hold; eauto.
  - unfold step_Start in H.
    destruct (start s) as [|[|w0 rest]|w0 rest| | |];
      try destruct (decide _); simplify_eq; simpl;
      intros j u w v Hu Hw Hp; try (eapply Hold; eauto; fail).
    apply lookup_spawned in Hu as [Hu|Hu]; [eapply Hold; eauto | now left].
  - unfold step_Close, log_Close, logger.Info in H. rewrite Hl in H.
    destruct (close s); try discriminate;
      try (match type of H with
           | context [logger.emit ?lvl _ ?m ?x ?g] =>
               destruct (emit_ok lvl l m x g HL) as [L E]; rewrite E in H
           end);
      simplify_eq; simpl; intros; eapply Hold; eauto.
  - unfold step_unit, logger.Error in H. rewrite Hl in H.
    destruct (units s !! i) as [u0|] eqn:Hu0; [|discriminate].
    assert (Hnew : forall p u w v h,
               pc u = p -> worker u = worker u0 -> worker u = Some w ->
               Process w = PanicsWith v ->
               (pc u0 = UnitProcess -> p = UnitDeferred (Some v)) ->
               (pc u0 = UnitDeferred (Some v) -> p = UnitLogPanic v) ->
               (pc u0 = UnitLogPanic v ->
                p = UnitDead (Go.Str "panic: %v") /\
                h = Some (Crash (Go.Str "panic: %v"))) ->
               pc u = UnitProcess \/ pc u = UnitDeferred (Some v) \/
               pc u = UnitLogPanic v \/
               pc u = UnitDead (Go.Str "panic: %v") /\
               h = Some (Crash (Go.Str "panic: %v"))).
    { intros p u w v h Hpc Hwu Hw Hp H1 H2 H3.
      rewrite Hwu in Hw.
      destruct (Hinv _ _ _ _ Hu0 Hw Hp) as [Hc|[Hc|[Hc|[_ Hc]]]];
        [| | |congruence].
      - rewrite Hpc, (H1 Hc). auto.
      - rewrite Hpc, (H2 Hc). auto.
      - destruct (H3 Hc) as [-> ->] . rewrite Hpc. auto. }
    assert (Hfin : forall p h s1,
               units s1 = units s ->
               (forall u w v,
                   pc u = p -> worker u = worker u0 -> worker u = Some w ->
                   Process w = PanicsWith v ->
                   pc u = UnitProcess \/ pc u = UnitDeferred (Some v) \/
                   pc u = UnitLogPanic v \/
                   pc u = UnitDead (Go.Str "panic: %v") /\
                   h = Some (Crash (Go.Str "panic: %v"))) ->
               forall j u w v,
                 units (set_pc i p s1) !! j = Some u ->
                 worker u = Some w ->
                 Process w = PanicsWith v ->
                 pc u = UnitProcess \/ pc u = UnitDeferred (Some v) \/
                 pc u = UnitLogPanic v \/
                 pc u = UnitDead (Go.Str "panic: %v") /\
                 h = Some (Crash (Go.Str "panic: %v"))).
    { intros p h s1 Hs1 Hp j u w v Hu Hw Hpw.
      apply set_pc_lookup in Hu as [Hu|(_ & Hpc & u1 & Hu1 & Hwu)].
      - rewrite Hs1 in Hu. eapply Hold; eauto.
      - rewrite Hs1, Hu0 in Hu1. simplify_eq. eapply Hp; eauto. }
    destruct (pc u0) as [|err|[err|]|err| | |] eqn:Hpc0; try discriminate.
    + destruct (worker u0) as [w0|] eqn:Hw0;
        [destruct (Process w0) eqn:Hp0|]; simplify_eq;
        autorewrite with pool_frame; apply Hfin; auto;
        intros; eapply Hnew; eauto; intros; congruence.
    + destruct (emit_ok slog.LevelError l "worker process err: %v" [err]
                  (globals s) HL) as [L E].
      rewrite E in H. simplify_eq.
      autorewrite with pool_frame. simpl. apply Hfin; auto;
        intros; eapply Hnew; eauto; intros; congruence.
    + simplify_eq. autorewrite with pool_frame. apply Hfin; auto;
        intros; eapply Hnew; eauto; intros; congruence.
    + simplify_eq. autorewrite with pool_frame. apply Hfin; auto;
        intros; eapply Hnew; eauto; intros; congruence.
    + destruct (Panic_ok l "panic: %v" [err] (globals s) HL) as (g' & E & _).
      rewrite E in H. simplify_eq. simpl. apply Hfin; auto;
        intros; eapply Hnew; eauto; intros; congruence.
    + destruct (decide (wg (pool s) - 1 < 0)); simplify_eq; simpl;
        autorewrite with pool_frame; apply Hfin; auto;
        intros; eapply Hnew; eauto; intros; congruence.
  - unfold step_Handoff in H.
    destruct (done (pool s)), (start s), (close s); simplify_eq.
    simpl. intros; eapply Hold; eauto.
Qed.

Lemma boot_panics_escape g wp : panics_escape (boot g wp).
Proof. intros i u w v Hu. simpl in Hu. now rewrite lookup_nil in Hu. Qed.

Lemma reachable_panics_escape conf ws s :
  reachable conf ws s -> logger_ok s /\ panics_escape s.
Proof.
  intros (wp & g & acts & Hsetup & Hexec).
  eapply (exec_invariant (fun s => logger_ok s /\ panics_escape s));
    eauto using step_panics_escape.
  split; [eapply boot_logger_ok; eauto | apply boot_panics_escape].
Qed.


Lemma Panic_logs a msg args g :
  is_Some (logger.heap g !! a) ->
  exists L,
    logger.Panic (Some a) msg args g =
      logger.Panics (Go.Str msg)
        (logger.set_records
           (logger.records g ++
              [{| slog.via := logger.slog L; slog.level := slog.LevelError;
                  slog.message := msg; slog.arguments := args |}]) g).
Proof.
  intros HL. destruct (emit_ok slog.LevelError a msg args g HL) as [L E].
  exists L. unfold logger.Panic, logger.bind, logger.panic. now rewrite E.
Qed.

(** C2, on the code. In every run of a pool that [NewWorkerPool]
    built, a goroutine whose worker panics in [Process] is on the path
    from the call to the deferred function to [wp.logger.Panic] to an
    unrecovered panic: it never reaches [wg.Done()] and never ends
    normally.  Its step at [wp.logger.Panic] writes the record
    "panic: %v" at error level and then ends the process with the
    panic value "panic: %v", the counter of the wait group being what
    it was and [Start] where it was. *)
Theorem panic_crashes_process conf ws s i u w v :
  reachable conf ws s ->
  units s !! i = Some u ->
  worker u = Some w ->
  Process w = PanicsWith v ->
  panic_path v s u /\
  pc u <> UnitDone /\
  ~ exited u /\
  (pc u = UnitLogPanic v ->
   halted s = None ->
   exists s' r,
     step (StepUnit i) s = Some s' /\
     halted s' = Some (Crash (Go.Str "panic: %v")) /\
     last (logger.records (globals s')) = Some r /\
     slog.message r = "panic: %v" /\
     slog.level r = slog.LevelError /\
     slog.arguments r = [v] /\
     wg (pool s') = wg (pool s) /\
     start s' = start s).
Proof.
  intros Hr Hu Hw Hp.
  destruct (reachable_panics_escape _ _ _ Hr) as [(l & Hl & HL) Hinv].
  pose proof (Hinv _ _ _ _ Hu Hw Hp) as Hpath.
  split; [exact Hpath|].
  unfold exited. repeat split.
  - destruct Hpath as [?|[?|[?|[? _]]]]; congruence.
  - destruct Hpath as [?|[?|[?|[? _]]]]; congruence.
  - intros Hpc Hh.
    destruct (Panic_logs l "panic: %v" [v] (globals s) HL) as [L E].
    unfold step, step_unit. rewrite Hh, Hu, Hpc, Hl, E.
    eexists _, _. split; [reflexivity|].
    simpl. autorewrite with pool_frame. simpl.
    rewrite last_snoc. repeat split.
Qed.

(** *** The barrier of [Start] *)

Lemma pending_range u : 0 <= pending u <= 1.
Proof. unfold pending. destruct (pc u); lia. Qed.

Lemma outstanding_nonneg us : 0 <= outstanding us.
Proof.
  induction us as [|u us IH]; simpl; [lia|].
  pose proof (pending_range u). lia.
Qed.

Lemma outstanding_app us vs :
  outstanding (us ++ vs) = outstanding us + outstanding vs.
Proof. induction us as [|u us IH]; simpl; lia. Qed.

Lemma outstanding_insert us :
  forall i u u',
    us !! i = Some u ->
    outstanding (<[i := u']> us) = outstanding us - pending u + pending u'.
Proof.
  induction us as [|x us IH]; intros [|i] u u' H; simpl in *; try discriminate.
  - simplify_eq. lia.
  - rewrite (IH _ _ _ H). lia.
Qed.

Lemma outstanding_zero us : outstanding us = 0 -> Forall exited us.
Proof.
  induction us as [|u us IH]; simpl; intros H; [constructor|].
  pose proof (pending_range u). pose proof (outstanding_nonneg us).
  constructor; [|apply IH; lia].
  unfold exited. unfold pending in *. destruct (pc u); auto; lia.
Qed.

Lemma outstanding_set_pc i p s u :
  units s !! i = Some u ->
  outstanding (units (set_pc i p s)) =
    outstanding (units s) - pending u + match p with UnitExited => 0 | _ => 1 end.
Proof.
  intros H. rewrite (set_pc_units _ _ _ _ H).
  now rewrite (outstanding_insert _ _ _ _ H).
Qed.

Lemma step_counted a s s' : counted s -> step a s = Some s' -> counted s'.
Proof.
  unfold counted. intros Hc H. step_cases H;
    repeat match goal with
      | Hu : units ?s !! ?i = Some ?u |- context [set_pc ?i ?p ?s1] =>
          rewrite (outstanding_set_pc i p s1 u Hu)
      | Hs : start _ = _ |- _ => rewrite Hs in *
      | Hp : pc ?u = _ |- context [pending ?u] => unfold pending; rewrite Hp
      end;
    rewrite ?outstanding_app; simpl; unfold pending; simpl; try lia;
    try (destruct w; simpl; lia).
Qed.

Lemma step_joined a s s' :
  counted s ->
  (past_wait s -> Forall exited (units s)) ->
  step a s = Some s' ->
  past_wait s' -> Forall exited (units s').
Proof.
  unfold counted, past_wait. intros Hc Hj H Hp.
  step_cases H;
    try match goal with Hs : start _ = _ |- _ => rewrite Hs in * end;
    try solve [ destruct Hp; congruence
              | apply Hj; assumption
              | apply outstanding_zero; lia ];
    try (exfalso;
         match goal with
         | Hu : units _ !! _ = Some ?u |- _ =>
             pose proof (Forall_lookup_1 _ _ _ _ (Hj Hp) Hu) as Hx;
             unfold exited in Hx; congruence
         end).
  apply Hj. now left.
Qed.

Lemma set_pc_workers i p s :
  map worker (units (set_pc i p s)) = map worker (units s).
Proof.
  unfold set_pc. destruct (units s !! i) as [u|] eqn:Hu; [|reflexivity].
  simpl. apply list_eq. intros j.
  rewrite !list_lookup_fmap.
  destruct (decide (i = j)) as [->|Hne].
  - rewrite list_lookup_insert_eq by (eapply lookup_lt_Some; eauto).
    now rewrite Hu.
  - now rewrite list_lookup_insert_ne.
Qed.

Lemma step_launched ws a s s' :
  start s <> StartIdle ->
  launched ws s ->
  step a s = Some s' ->
  start s' <> StartIdle /\ launched ws s'.
Proof.
  unfold launched. intros Hs Hl H.
  step_cases H;
    try match goal with Hs : start _ = _ |- _ => rewrite Hs in * end;
    try congruence;
    (split; [congruence|]); auto;
    rewrite ?set_pc_workers, ?map_app, ?app_nil_r in *; simpl;
    rewrite <- ?app_assoc; auto;
    destruct (start s); try congruence;
    match goal with
    | Hu : units ?s !! ?i = Some ?u |- context [set_pc ?i ?p ?s1] =>
        pose proof (set_pc_workers i p s1) as Hw; simpl in Hw;
        rewrite ?Hw; auto
    end.
Qed.

Lemma step_idle a s s' :
  (start s = StartIdle -> units s = []) ->
  step a s = Some s' ->
  start s' = StartIdle -> units s' = [].
Proof.
  intros Hi H Hs'.
  step_cases H;
    try match goal with Hs : start _ = _ |- _ => rewrite Hs in * end;
    try congruence; auto;
    match goal with
    | Hu : units ?s !! _ = Some _ |- _ =>
        assert (He : units s = []) by auto;
        rewrite He in Hu; now rewrite lookup_nil in Hu
    end.
Qed.

(** X19. The part of the barrier that the code has: in a run of any pool
    whose wait group starts at zero, with a channel or without,
    whenever [Start] is past [wg.Wait()] the goroutines are those of
    the workers that were registered when [Start] was called, one
    each and in order, and every one of them has run [wg.Done()] and
    is over. *)
Lemma Start_waits_for_launched g wp acts1 acts2 s1 s :
  wg wp = 0 ->
  exec acts1 (boot g wp) = Some s1 ->
  start s1 = StartIdle ->
  exec (CallStart :: acts2) s1 = Some s ->
  past_wait s ->
  map worker (units s) = workers (pool s1) /\ Forall exited (units s).
Proof.
  intros Hwg H1 Hidle H2 Hpast.
  assert (Hs1 : counted s1 /\ (start s1 = StartIdle -> units s1 = [])).
  { eapply (exec_invariant
              (fun s => counted s /\ (start s = StartIdle -> units s = [])));
      [| |exact H1].
    - intros a x x' [Hc Hi] Hx. split; [eapply step_counted; eauto|].
      eapply step_idle; eauto.
    - split; [|reflexivity]. unfold counted. simpl. lia. }
  destruct Hs1 as [Hc1 Hu1]. specialize (Hu1 Hidle).
  simpl in H2. destruct (step CallStart s1) as [s2|] eqn:Hcall; [|discriminate].
  pose proof (step_counted _ _ _ Hc1 Hcall) as Hc2.
  unfold step in Hcall. destruct (halted s1); [discriminate|].
  rewrite Hidle in Hcall. simplify_eq.
  set (ws := workers (pool s1)) in *.
  assert (Hinv : (start s <> StartIdle /\ launched ws s) /\ counted s /\
                 (past_wait s -> Forall exited (units s))).
  { eapply (exec_invariant
              (fun s => (start s <> StartIdle /\ launched ws s) /\ counted s /\
                        (past_wait s -> Forall exited (units s))));
      [| |exact H2].
    - intros a x x' [[Hn Hl] [Hc Hj]] Hx. repeat split.
      + eapply step_launched; eauto.
      + eapply step_launched; eauto.
      + eapply step_counted; eauto.
      + eapply step_joined; eauto.
    - split; [split|split].
      + simpl. congruence.
      + unfold launched. simpl. now rewrite Hu1.
      + exact Hc2.
      + unfold past_wait. simpl. intros [?|?]; congruence. }
  destruct Hinv as [[_ Hl] [_ Hj]]. split; [|auto].
  unfold launched in Hl. destruct Hpast as [Hp|Hp]; now rewrite Hp in Hl.
Qed.

(** *** What holds along every run *)

(** The cases of a step of a pool whose logger exists. *)
Ltac step_cases_ok H l Hl HL :=
  unfold step in H;
  match type of H with
  | context [halted ?s] => destruct (halted s) eqn:?; [discriminate|]
  end;
  match type of H with
  | context [match ?a with CallRegister _ => _ | _ => _ end] => destruct a
  end;
  unfold step_Start, step_Close, log_Close, step_Handoff, step_unit,
    logger.Info, logger.Error in H;
  rewrite ?Hl in H;
  repeat match type of H with
    | context [logger.emit ?lvl (Some l) ?m ?x ?g] =>
        destruct (emit_ok lvl l m x g HL) as [? ?E];
        rewrite E in H; clear E
    | context [logger.Panic (Some l) ?m ?x ?g] =>
        destruct (Panic_logs l m x g HL) as [? ?E];
        rewrite E in H; clear E
    | context [match ?x with _ => _ end] => destruct x eqn:?
    end;
  simplify_eq; simpl in *; autorewrite with pool_frame in *; simpl in *.

Lemma outstanding_lookup us :
  forall i u, us !! i = Some u -> pending u <= outstanding us.
Proof.
  induction us as [|x us IH]; intros [|i] u H; simpl in *; try discriminate.
  - simplify_eq. pose proof (outstanding_nonneg us). lia.
  - pose proof (IH _ _ H). pose proof (pending_range x). lia.
Qed.

Lemma counted_Done s i u :
  counted s -> units s !! i = Some u -> pc u = UnitDone -> 1 <= wg (pool s).
Proof.
  unfold counted. intros Hc Hu Hp.
  pose proof (outstanding_lookup _ _ _ Hu) as Ho.
  unfold pending in Ho. rewrite Hp in Ho.
  destruct (start s); lia.
Qed.

Lemma units_set_pc P i p s u :
  units s !! i = Some u ->
  Forall P (units s) ->
  P {| worker := worker u; pc := p |} ->
  Forall P (units (set_pc i p s)).
Proof.
  intros Hu HF HP. rewrite (set_pc_units _ _ _ _ Hu).
  now apply Forall_insert.
Qed.

Lemma step_non_nil a s s' :
  Forall (fun w => w <> None) (queue s) ->
  Forall (fun w => w <> None) (workers (pool s)) ->
  step a s = Some s' ->
  Forall (fun w => w <> None) (queue s').
Proof.
  unfold queue. intros Hq Hw H.
  step_cases H;
    try match goal with Hs : start _ = _ |- _ => rewrite Hs in * end;
    auto;
    try (inversion Hq; subst; auto; fail).
Qed.

Lemma dead_set_pc i v s u :
  units s !! i = Some u ->
  Exists (fun u => pc u = UnitDead v) (units (set_pc i (UnitDead v) s)).
Proof.
  intros Hu. rewrite (set_pc_units _ _ _ _ Hu). apply Exists_exists.
  exists {| worker := worker u; pc := UnitDead v |}. split; [|reflexivity].
  apply (list_elem_of_lookup_2 _ i). apply list_lookup_insert_eq.
  eapply lookup_lt_Some; eauto.
Qed.

Lemma step_units_sound a s s' :
  logger_ok s ->
  counted s ->
  Forall (fun w => w <> None) (queue s) ->
  Forall (fun u => worker u <> None /\ on_path u) (units s) ->
  crash_cause s ->
  step a s = Some s' ->
  Forall (fun u => worker u <> None /\ on_path u) (units s') /\
  crash_cause s'.
Proof.
  intros (l & Hl & HL) Hc Hq Hu Hcr H.
  unfold crash_cause, queue in *.
  step_cases_ok H l Hl HL;
    try match goal with Hh : halted _ = None |- _ => rewrite ?Hh end;
    try match goal with Hs : start _ = _ |- _ => rewrite Hs in * end;
    try (split; [assumption | exact I]);
    try match goal with
      | Hi : units ?s !! ?i = Some ?u, Hp : pc ?u = _ |- _ =>
          pose proof (Forall_lookup_1 _ _ _ _ Hu Hi) as [Hwn Hop];
          unfold on_path in Hop; rewrite Hp in Hop;
          try (pose proof (counted_Done _ _ _ Hc Hi Hp) as Hwg);
          try lia; try congruence;
          (split;
           [ eapply units_set_pc;
             [ simpl; eassumption | assumption
             | split; [exact Hwn | unfold on_path; simpl; eauto 6] ]
           | first [ exact I
                   | split; [reflexivity | eapply dead_set_pc; simpl; eauto] ] ])
      end.
  - inversion Hq; subst. split; [|exact I].
    apply Forall_app. split; [exact Hu|].
    constructor; [|constructor]. split; [assumption | exact I].
  - destruct Hop as (w & Hw & Hp). split; [reflexivity | eauto].
Qed.

Lemma step_sound a s s' : sound s -> step a s = Some s' -> sound s'.
Proof.
  intros (Hok & Hc & Hw & Hq & Hu & Hcr) H.
  destruct (step_units_sound _ _ _ Hok Hc Hq Hu Hcr H) as [Hu' Hcr'].
  repeat split; auto.
  - eapply step_logger_ok; eauto.
  - eapply step_counted; eauto.
  - eapply step_workers_non_nil; eauto.
  - eapply step_non_nil; eauto.
Qed.

Lemma boot_sound conf ws wp g :
  setup conf ws = logger.Returns wp g -> sound (boot g wp).
Proof.
  intros H.
  destruct (setup_returns conf ws) as (wp' & g' & H' & _ & Hwg & Hw & _ & Hl).
  rewrite H in H'. injection H' as <- <-.
  split; [exact Hl|]. split; [unfold counted; simpl; lia|].
  split; [|split; [constructor|split; [constructor|exact I]]].
  simpl. rewrite Hw. clear. induction ws as [|[w|] ws IH]; simpl; auto.
Qed.

Lemma reachable_sound conf ws s : reachable conf ws s -> sound s.
Proof.
  intros (wp & g & acts & Hsetup & Hexec).
  eapply (exec_invariant sound); eauto using step_sound.
  eapply boot_sound; eauto.
Qed.


Lemma outstanding_exited us : Forall exited us -> outstanding us = 0.
Proof.
  induction 1 as [|u us Hu _ IH]; simpl; [reflexivity|].
  unfold pending. rewrite Hu. lia.
Qed.

(** X12. In every run of a pool that [NewWorkerPool] built, the counter
    of the wait group is the number of goroutines that have not run
    [wg.Done()], plus one between [wg.Add(1)] and the go statement; it
    is never negative, and it is at least one whenever a goroutine is
    about to run [wg.Done()]. *)
Theorem wait_group_counts conf ws s :
  reachable conf ws s ->
  wg (pool s) =
    outstanding (units s) + match start s with StartGo _ _ => 1 | _ => 0 end /\
  0 <= wg (pool s) /\
  (forall i u, units s !! i = Some u -> pc u = UnitDone -> 1 <= wg (pool s)).
Proof.
  intros Hr. destruct (reachable_sound _ _ _ Hr) as (_ & Hc & _).
  split; [exact Hc|]. split.
  - unfold counted in Hc. pose proof (outstanding_nonneg (units s)).
    destruct (start s); lia.
  - intros i u Hu Hp. eapply counted_Done; eauto.
Qed.

(** X13. In every run of a pool that [NewWorkerPool] built, [Start] at
    [wg.Wait()] can go on exactly when every goroutine it launched has
    run [wg.Done()] and is over. *)
Theorem Wait_returns_when_all_done conf ws s :
  reachable conf ws s ->
  start s = StartWait ->
  halted s = None ->
  (is_Some (step StepStart s) <-> Forall exited (units s)).
Proof.
  intros Hr Hs Hh. destruct (reachable_sound _ _ _ Hr) as (_ & Hc & _).
  unfold counted in Hc. rewrite Hs in Hc.
  unfold step, step_Start. rewrite Hh, Hs.
  destruct (decide (wg (pool s) = 0)) as [Hz|Hz]; split.
  - intros _. apply outstanding_zero. lia.
  - intros _. eexists. reflexivity.
  - intros [x Hx]. discriminate.
  - intros Hall. rewrite (outstanding_exited _ Hall) in Hc. lia.
Qed.

(** *** What the pool logs *)

Lemma Panic_valid a L msg args g :
  logger.heap g !! a = Some L ->
  logger.Panic (Some a) msg args g =
    logger.Panics (Go.Str msg)
      (logger.set_records
         (logger.records g ++
            [logger.record_of L slog.LevelError msg args]) g).
Proof.
  intros Ha. unfold logger.Panic, logger.bind, logger.panic.
  now rewrite (emit_valid _ _ _ _ _ _ Ha).
Qed.

(** The cases of a step of a pool whose logger is [L] at address [l]. *)
Ltac step_cases_at H l L Hl Ha :=
  unfold step in H;
  match type of H with
  | context [halted ?s] => destruct (halted s) eqn:?; [discriminate|]
  end;
  match type of H with
  | context [match ?a with CallRegister _ => _ | _ => _ end] => destruct a
  end;
  unfold step_Start, step_Close, log_Close, step_Handoff, step_unit,
    logger.Info, logger.Error in H;
  rewrite ?Hl in H;
  repeat match type of H with
    | context [logger.emit ?lvl (Some l) ?m ?x ?g] =>
        rewrite (emit_valid lvl l L m x g Ha) in H
    | context [logger.Panic (Some l) ?m ?x ?g] =>
        rewrite (Panic_valid l L m x g Ha) in H
    | context [match ?x with _ => _ end] => destruct x eqn:?
    end;
  simplify_eq; simpl in *; autorewrite with pool_frame in *; simpl in *.

Lemma step_pool_logging conf a s s' :
  sound s ->
  nil_channel s ->
  pool_logging conf s ->
  step a s = Some s' ->
  pool_logging conf s'.
Proof.
  intros (_ & _ & _ & _ & Hu & _) (_ & _ & Hcl & _) (Hl & Hh & Hr) H.
  assert (Ha : logger.heap (globals s) !! 1%nat =
               Some {| logger.slog := pool_slog conf;
                       logger.handler := logger.handler (logger.build conf) |})
    by now rewrite Hh.
  unfold pool_logging.
  step_cases_at H 1%nat
    {| logger.slog := pool_slog conf;
       logger.handler := logger.handler (logger.build conf) |} Hl Ha;
    rewrite ?Register_logger;
    try congruence;
    (split; [assumption|]); (split; [assumption|]);
    try assumption.
  all: apply Forall_app; (split; [assumption|]);
    constructor; [|constructor];
    (split; [reflexivity|]); simpl.
  - left. auto.
  - match goal with
    | Hi : units s !! _ = Some ?u, Hp : pc ?u = _ |- _ =>
        destruct (Forall_lookup_1 _ _ _ _ Hu Hi) as [_ Hop];
        unfold on_path in Hop; rewrite Hp in Hop;
        destruct Hop as (w & e & _ & _ & ->)
    end.
    right. left. eauto.
  - right. right. eauto.
Qed.

Lemma setup_exact conf ws :
  setup conf ws =
    logger.Returns (registers ws (new_pool 1))
      (logger.set_heap
         [logger.build conf;
          {| logger.slog := pool_slog conf;
             logger.handler := logger.handler (logger.build conf) |}]
         (logger.set_once true (logger.construct conf logger.initial))).
Proof. reflexivity. Qed.

Lemma boot_pool_logging conf ws wp g :
  setup conf ws = logger.Returns wp g -> pool_logging conf (boot g wp).
Proof.
  rewrite setup_exact. intros [= <- <-]. unfold pool_logging. simpl.
  destruct (registers_frame ws (new_pool 1)) as (_ & _ & ->).
  repeat split. constructor.
Qed.

(** X14. In every run of a pool that [NewWorkerPool] built, every
    record there is was written through the logger of the pool, the
    singleton's slog logger with the group "worker pool", and is one
    of three: "worker pool closing" at info level without arguments,
    "worker process err: %v" at error level with the error a worker
    returned, or "panic: %v" at error level with one argument. *)
Theorem pool_records conf ws s :
  reachable conf ws s ->
  Forall (pool_record conf) (logger.records (globals s)).
Proof.
  intros (wp & g & acts & Hsetup & Hexec).
  assert (H : sound s /\ nil_channel s /\ pool_logging conf s).
  { eapply (exec_invariant
              (fun s => sound s /\ nil_channel s /\ pool_logging conf s));
      [| |exact Hexec].
    - intros a x x' (H1 & H2 & H3) Hx. split; [|split].
      + eapply step_sound; eauto.
      + eapply step_nil_channel; eauto.
      + eapply step_pool_logging; eauto.
    - split; [|split].
      + eapply boot_sound; eauto.
      + eapply boot_nil_channel; eauto.
      + eapply boot_pool_logging; eauto. }
  destruct H as (_ & _ & _ & _ & Hr). exact Hr.
Qed.

(** *** Cancellation *)




(** *** Workers that return *)

Lemma set_pc_at i p s u :
  units s !! i = Some u ->
  set_pc i p s = set_units (<[i := {| worker := worker u; pc := p |}]> (units s)) s.
Proof. intros H. unfold set_pc. now rewrite H. Qed.

Lemma unit_step_returns_nil i s u w :
  halted s = None -> units s !! i = Some u -> pc u = UnitProcess ->
  worker u = Some w -> Process w = ReturnsNil ->
  step (StepUnit i) s =
    Some (set_units (<[i := {| worker := Some w; pc := UnitDeferred None |}]>
                       (units s)) s).
Proof.
  intros Hh Hu Hpc Hw Hp. unfold step, step_unit.
  rewrite Hh, Hu, Hpc, Hw, Hp, (set_pc_at _ _ _ _ Hu). now rewrite Hw.
Qed.

Lemma unit_step_returns_error i s u w e :
  halted s = None -> units s !! i = Some u -> pc u = UnitProcess ->
  worker u = Some w -> Process w = ReturnsError e ->
  step (StepUnit i) s =
    Some (set_units
            (<[i := {| worker := Some w; pc := UnitLogError (Go.Error e) |}]>
               (units s)) s).
Proof.
  intros Hh Hu Hpc Hw Hp. unfold step, step_unit.
  rewrite Hh, Hu, Hpc, Hw, Hp, (set_pc_at _ _ _ _ Hu). now rewrite Hw.
Qed.

Lemma unit_step_logs_error i s u l L err :
  halted s = None -> units s !! i = Some u -> pc u = UnitLogError err ->
  logger (pool s) = Some l -> logger.heap (globals s) !! l = Some L ->
  step (StepUnit i) s =
    Some (set_units
            (<[i := {| worker := worker u; pc := UnitDeferred None |}]> (units s))
            (set_globals
               (logger.set_records
                  (logger.records (globals s) ++
                     [logger.record_of L slog.LevelError
                        "worker process err: %v" [err]])
                  (globals s)) s)).
Proof.
  intros Hh Hu Hpc Hl Ha. unfold step, step_unit, logger.Error.
  rewrite Hh, Hu, Hpc, Hl, (emit_valid _ _ _ _ _ _ Ha).
  now rewrite (set_pc_at i _ (set_globals _ s) u Hu).
Qed.

Lemma unit_step_deferred i s u :
  halted s = None -> units s !! i = Some u -> pc u = UnitDeferred None ->
  step (StepUnit i) s =
    Some (set_units (<[i := {| worker := worker u; pc := UnitDone |}]> (units s)) s).
Proof.
  intros Hh Hu Hpc. unfold step, step_unit.
  now rewrite Hh, Hu, Hpc, (set_pc_at _ _ _ _ Hu).
Qed.

Lemma unit_step_done i s u :
  halted s = None -> units s !! i = Some u -> pc u = UnitDone ->
  1 <= wg (pool s) ->
  step (StepUnit i) s =
    Some (set_units (<[i := {| worker := worker u; pc := UnitExited |}]> (units s))
            (set_pool (set_wg (wg (pool s) - 1) (pool s)) s)).
Proof.
  intros Hh Hu Hpc Hwg. unfold step, step_unit.
  rewrite Hh, Hu, Hpc. destruct (decide (wg (pool s) - 1 < 0)); [lia|].
  now rewrite (set_pc_at i _ (set_pool _ s) u Hu).
Qed.

Lemma counted_Process s i u :
  counted s -> units s !! i = Some u -> pc u = UnitProcess -> 1 <= wg (pool s).
Proof.
  unfold counted. intros Hc Hu Hp.
  pose proof (outstanding_lookup _ _ _ Hu) as Ho.
  unfold pending in Ho. rewrite Hp in Ho.
  destruct (start s); lia.
Qed.

(** X16. A goroutine whose worker returns nil from [Process] ends in
    three steps whenever it is scheduled: the deferred function finds
    no panic, [wg.Done()] takes one off the counter, and the goroutine
    is over, with nothing logged and the process still running. *)
Theorem returning_worker_exits conf ws s i u w :
  reachable conf ws s ->
  halted s = None ->
  units s !! i = Some u ->
  pc u = UnitProcess ->
  worker u = Some w ->
  Process w = ReturnsNil ->
  exists s',
    exec [StepUnit i; StepUnit i; StepUnit i] s = Some s' /\
    halted s' = None /\
    units s' = <[i := {| worker := Some w; pc := UnitExited |}]> (units s) /\
    wg (pool s') = wg (pool s) - 1 /\
    logger.records (globals s') = logger.records (globals s) /\
    start s' = start s /\ close s' = close s.
Proof.
  intros Hr Hh Hu Hpc Hw Hp.
  destruct (reachable_sound _ _ _ Hr) as (_ & Hc & _).
  pose proof (counted_Process _ _ _ Hc Hu Hpc) as Hwg.
  pose proof (lookup_lt_Some _ _ _ Hu) as Hlt.
  eexists. split.
  - cbn [exec].
    rewrite (unit_step_returns_nil _ _ _ _ Hh Hu Hpc Hw Hp).
    erewrite unit_step_deferred;
      [| exact Hh | simpl; apply list_lookup_insert_eq; exact Hlt | reflexivity].
    erewrite unit_step_done;
      [| exact Hh
       | simpl; apply list_lookup_insert_eq; rewrite length_insert; exact Hlt
       | reflexivity | exact Hwg].
    reflexivity.
  - simpl. rewrite !list_insert_insert_eq. repeat split; auto.
Qed.

(** X17. A goroutine whose worker returns an error from [Process] ends
    in four steps whenever it is scheduled: it writes
    "worker process err: %v" with the error at error level, the
    deferred function finds no panic, [wg.Done()] takes one off the
    counter, and the goroutine is over; the process is still running,
    and [Start] and [Close] are where they were. *)
Theorem failing_worker_exits conf ws s i u w e :
  reachable conf ws s ->
  halted s = None ->
  units s !! i = Some u ->
  pc u = UnitProcess ->
  worker u = Some w ->
  Process w = ReturnsError e ->
  exists s' r,
    exec [StepUnit i; StepUnit i; StepUnit i; StepUnit i] s = Some s' /\
    halted s' = None /\
    units s' = <[i := {| worker := Some w; pc := UnitExited |}]> (units s) /\
    wg (pool s') = wg (pool s) - 1 /\
    logger.records (globals s') = logger.records (globals s) ++ [r] /\
    slog.level r = slog.LevelError /\
    slog.message r = "worker process err: %v" /\
    slog.arguments r = [Go.Error e] /\
    start s' = start s /\ close s' = close s.
Proof.
  intros Hr Hh Hu Hpc Hw Hp.
  destruct (reachable_sound _ _ _ Hr) as ((l & Hl & [L Ha]) & Hc & _).
  pose proof (counted_Process _ _ _ Hc Hu Hpc) as Hwg.
  pose proof (lookup_lt_Some _ _ _ Hu) as Hlt.
  eexists _, (logger.record_of L slog.LevelError "worker process err: %v"
                [Go.Error e]).
  split.
  - cbn [exec].
    rewrite (unit_step_returns_error _ _ _ _ _ Hh Hu Hpc Hw Hp).
    erewrite (unit_step_logs_error i _ _ l L);
      [| exact Hh | simpl; apply list_lookup_insert_eq; exact Hlt
       | reflexivity | exact Hl | exact Ha].
    erewrite unit_step_deferred;
      [| exact Hh
       | simpl; apply list_lookup_insert_eq; rewrite length_insert; exact Hlt
       | reflexivity].
    erewrite unit_step_done;
      [| exact Hh
       | simpl; apply list_lookup_insert_eq; rewrite !length_insert; exact Hlt
       | reflexivity | exact Hwg].
    reflexivity.
  - simpl. rewrite !list_insert_insert_eq. repeat split; auto.
Qed.

(** *** Registration after [Start] *)

(** X18. Once [Start] has been called, the goroutines launched so far
    and the workers the loop has still to launch are, together and in
    order, the workers that were registered at the call; a worker
    registered later is in the list of the pool and is never
    launched. *)
Theorem Start_launches_snapshot g wp acts1 acts2 s1 s :
  exec acts1 (boot g wp) = Some s1 ->
  start s1 = StartIdle ->
  exec (CallStart :: acts2) s1 = Some s ->
  start s <> StartIdle /\
  map worker (units s) ++ queue s = workers (pool s1).
Proof.
  intros H1 Hidle H2.
  assert (Hu1 : units s1 = []).
  { assert (Hi : start s1 = StartIdle -> units s1 = []); [|auto].
    eapply (exec_invariant (fun s => start s = StartIdle -> units s = []));
      [| |exact H1]; [|reflexivity].
    intros a x x' Hi Hx. eapply step_idle; eauto. }
  simpl in H2. destruct (step CallStart s1) as [s2|] eqn:Hcall; [|discriminate].
  unfold step in Hcall. destruct (halted s1); [discriminate|].
  rewrite Hidle in Hcall. simplify_eq.
  set (ws := workers (pool s1)) in *.
  assert (Hinv : start s <> StartIdle /\ launched ws s).
  { eapply (exec_invariant (fun s => start s <> StartIdle /\ launched ws s));
      [| |exact H2].
    - intros a x x' [Hn Hl] Hx. eapply step_launched; eauto.
    - split; [simpl; congruence|]. unfold launched. simpl. now rewrite Hu1. }
  destruct Hinv as [Hn Hl]. split; [exact Hn|].
  unfold launched in Hl. unfold queue.
  destruct (start s); try congruence; now rewrite ?app_nil_r.
Qed.

End Runs.

(* ================================================================== *)
(** * The properties at sample inputs *)

Section Samples.

Import logger workerpool.


(** [GetInstance] before any call, and after [Init] and a log call. *)
Lemma GetInstance_singleton_witness :
  GetInstance initial = Panics (Go.Str "logger not initialized") initial /\
  exists g a,
    history [CallInit None; CallInfo (Some 0%nat) "up" []] initial = Some g /\
    GetInstance g = Returns (Some a) g /\
    (forall conf, Init conf g = Returns (Some a) g) /\
    is_Some (heap g !! a).
Proof.
  split.
  - apply (GetInstance_singleton [] initial). reflexivity.
  - eexists.
    assert (H : history [CallInit None; CallInfo (Some 0%nat) "up" []] initial
                = Some _) by (vm_compute; reflexivity).
    destruct (GetInstance_singleton _ _ H) as (a & Ha).
    exists a. split; [exact H | exact Ha].
Defined.

(** [WithContext] on the singleton with a request identifier and a
    user identifier in the context. *)
Lemma WithContext_attributes_witness :
  mutex ready = false /\
  heap ready !! 0%nat = Some (build None) /\
  exists l' g' L',
    WithContext (Some 0%nat) request_context ready = Returns l' g' /\
    l' <> Some 0%nat /\
    deref l' g' = Returns L' g' /\
    handler L' = handler (build None) /\
    slog L' =
      {| slog.base := slog.base (slog (build None));
         slog.scopes :=
           slog.scopes (slog (build None)) ++
             [slog.Attrs [Go.Str "request_id"; Go.Str "r-17";
                          Go.Str "user_id"; Go.Int 42]] |}.
Proof.
  assert (Hm : mutex ready = false) by reflexivity.
  assert (Ha : heap ready !! 0%nat = Some (build None)) by reflexivity.
  split; [exact Hm|]. split; [exact Ha|].
  apply (WithContext_attributes ready 0%nat (build None) request_context Hm Ha).
  left. discriminate.
Defined.


(** Four calls of [Register] on a new pool, one of them with nil. *)
Lemma Register_sequence_witness :
  exists wp g',
    NewWorkerPool ready = logger.Returns wp g' /\
    workers (registers [Some idler; None; Some faulty; Some idler] wp) =
      [Some idler; Some faulty; Some idler] /\
    length (workers (registers [Some idler; None; Some faulty; Some idler] wp)) =
      3%nat.
Proof.
  eexists _, _.
  assert (H : NewWorkerPool ready = logger.Returns _ _)
    by (vm_compute; reflexivity).
  split; [exact H|].
  destruct (Register_sequence _ _ _ [Some idler; None; Some faulty; Some idler] H)
    as (_ & _ & _ & Hw & Hn).
  split; [exact Hw | exact Hn].
Defined.

(** C5, as the specification has it, fails: on the pool that holds
    one worker, registering that worker again changes the list, which
    then holds the worker twice. *)
Lemma Register_rejects_duplicates_fails :
  exists wp g,
    setup None [Some idler] = logger.Returns wp g /\
    In (Some idler) (workers wp) /\
    workers (Register (Some idler) wp) = [Some idler; Some idler] /\
    workers (Register (Some idler) wp) <> workers wp /\
    ~ List.NoDup (workers (Register (Some idler) wp)).
Proof.
  eexists _, _. split; [vm_compute; reflexivity|]. simpl.
  split; [now left|]. split; [reflexivity|]. split; [discriminate|].
  intros H. apply List.NoDup_cons_iff in H as [H _]. apply H. now left.
Qed.

(** Registering a worker the pool holds already. *)
Lemma Register_keeps_duplicates_witness :
  exists wp g,
    setup None [Some idler] = logger.Returns wp g /\
    In (Some idler) (workers wp) /\
    workers (Register (Some idler) wp) = workers wp ++ [Some idler] /\
    ~ List.NoDup (workers (Register (Some idler) wp)).
Proof.
  eexists _, _. split; [vm_compute; reflexivity|].
  assert (Hin : In (Some idler)
                  (workers (registers [Some idler]
                              {| ctx := Go.WithCancel Go.Background;
                                 cancel := false; wg := 0;
                                 logger := Some 1%nat; workers := [];
                                 done := None |})))
    by (simpl; now left).
  split; [exact Hin|].
  destruct (Register_keeps_duplicates idler
              (registers [Some idler]
                 {| ctx := Go.WithCancel Go.Background;
                    cancel := false; wg := 0;
                    logger := Some 1%nat; workers := [];
                    done := None |}))
    as (Happ & _ & Hdup & _).
  split; [exact Happ | exact (Hdup Hin)].
Defined.

(** A pool without workers: [Start] passes the loop and the wait and
    stays at the send. *)
Lemma Start_never_returns_witness :
  exists s,
    run None [] [CallStart; StepStart; StepStart] = Some s /\
    start s = StartSend /\
    done (pool s) = None /\
    start s <> StartReturned /\
    (start s = StartSend ->
     forall a s', step a s = Some s' -> start s' = StartSend).
Proof.
  eexists.
  assert (H : run None [] [CallStart; StepStart; StepStart] = Some _)
    by (vm_compute; reflexivity).
  split; [exact H|]. split; [reflexivity|].
  exact (Start_never_returns None [] _ (run_reachable _ _ _ _ H)).
Defined.

(** A pool with one worker that panics: the goroutine at
    [wp.logger.Panic] ends the process on its next step. *)
Lemma panic_crashes_process_witness :
  exists s u,
    run None [Some faulty]
      [CallStart; StepStart; StepStart; StepStart; StepUnit 0; StepUnit 0] =
      Some s /\
    units s !! 0%nat = Some u /\
    pc u = UnitLogPanic (Go.Str "boom") /\
    ~ exited u /\
    exists s' r,
      step (StepUnit 0) s = Some s' /\
      halted s' = Some (Crash (Go.Str "panic: %v")) /\
      last (logger.records (globals s')) = Some r /\
      slog.message r = "panic: %v" /\
      slog.level r = slog.LevelError /\
      slog.arguments r = [Go.Str "boom"] /\
      wg (pool s') = wg (pool s) /\
      start s' = start s.
Proof.
  eexists _, {| worker := Some faulty; pc := UnitLogPanic (Go.Str "boom") |}.
  assert (H : run None [Some faulty]
                [CallStart; StepStart; StepStart; StepStart; StepUnit 0;
                 StepUnit 0] = Some _)
    by (vm_compute; reflexivity).
  split; [exact H|].
  match goal with
  | |- ?l !! ?i = Some ?u /\ _ =>
      assert (Hu : l !! i = Some u) by reflexivity
  end.
  split; [exact Hu|]. split; [reflexivity|].
  destruct (panic_crashes_process None [Some faulty] _ 0%nat _ faulty
              (Go.Str "boom") (run_reachable _ _ _ _ H) Hu eq_refl eq_refl)
    as (_ & _ & Hne & Hcrash).
  split; [exact Hne|]. apply Hcrash; reflexivity.
Defined.

(** A pool without workers, started and closed: [Close] logs, cancels
    and stays at the receive. *)
Lemma Close_never_completes_witness :
  exists s,
    run None []
      [CallStart; StepStart; StepStart; CallClose; StepClose; StepClose] =
      Some s /\
    close s = CloseReceive /\
    cancel (pool s) = true /\
    close s <> CloseLogClosed /\
    close s <> CloseReturned /\
    ~ closed_logged s /\
    (close s = CloseReceive ->
     forall a s', step a s = Some s' -> close s' = CloseReceive).
Proof.
  eexists.
  assert (H : run None []
                [CallStart; StepStart; StepStart; CallClose; StepClose;
                 StepClose] = Some _)
    by (vm_compute; reflexivity).
  split; [exact H|]. split; [reflexivity|]. split; [reflexivity|].
  exact (Close_never_completes None [] _ (run_reachable _ _ _ _ H)).
Defined.

(** Registrations with nil before and after [Start] is called. *)
Lemma workers_never_nil_witness :
  exists s,
    run None [Some idler; None; Some failing]
      [CallRegister None; CallStart; CallRegister (Some faulty); StepStart] =
      Some s /\
    workers (pool s) = [Some idler; Some failing; Some faulty] /\
    Forall (fun w => w <> None) (workers (pool s)).
Proof.
  eexists.
  assert (H : run None [Some idler; None; Some failing]
                [CallRegister None; CallStart; CallRegister (Some faulty);
                 StepStart] = Some _)
    by (vm_compute; reflexivity).
  split; [exact H|]. split; [reflexivity|].
  exact (proj1 (proj2 (workers_never_nil None [Some idler; None; Some failing] _
                         (run_reachable _ _ _ _ H)))).
Defined.

(** A worker that returns an error and one that returns nil: both
    goroutines are over when [Start] is at the send, and the error is
    the only record. *)
Lemma Start_waits_for_launched_sample :
  exists wp g s,
    setup None [Some failing; Some idler] = logger.Returns wp g /\
    exec [CallStart; StepStart; StepStart; StepStart; StepStart; StepStart;
          StepUnit 1; StepUnit 0; StepUnit 1; StepUnit 0; StepUnit 1;
          StepUnit 0; StepUnit 0; StepStart] (boot g wp) = Some s /\
    start s = StartSend /\
    map slog.message (logger.records (globals s)) = ["worker process err: %v"] /\
    map worker (units s) = [Some failing; Some idler] /\
    Forall exited (units s).
Proof.
  eexists _, _, _.
  split; [vm_compute; reflexivity|].
  match goal with
  | |- exec (CallStart :: ?acts) (boot ?g ?wp) = Some ?s /\ _ =>
      assert (H : exec (CallStart :: acts) (boot g wp) = Some s)
        by (vm_compute; reflexivity)
  end.
  split; [exact H|]. split; [reflexivity|]. split; [reflexivity|].
  match type of H with
  | exec _ (boot ?g ?wp) = Some ?s =>
      apply (Start_waits_for_launched g wp [] _ (boot g wp) s
               eq_refl eq_refl eq_refl H)
  end.
  now left.
Defined.

(** [Init] with a configuration that names no output. *)
Lemma Init_output_witness :
  exists a g' L,
    Init (Some json_config) initial = Returns (Some a) g' /\
    heap g' !! a = Some L /\
    slog.output (handler L) <> None /\
    slog.output (handler L) = Go.Stdout.
Proof. exact (Init_output (Some json_config) initial eq_refl). Defined.

(** [Init] with a JSON configuration, and with nil. *)
Lemma Init_handler_witness :
  (exists a g' L,
      Init (Some json_config) initial = Returns (Some a) g' /\
      heap g' !! a = Some L /\
      slog.kind (handler L) = slog.JSONHandler /\
      slog.Level (slog.options (handler L)) = -4 /\
      slog.ReplaceAttr (slog.options (handler L)) = Some "15:04:05") /\
  (exists a g' L,
      Init None initial = Returns (Some a) g' /\
      heap g' !! a = Some L /\
      slog.kind (handler L) = slog.TextHandler /\
      slog.Level (slog.options (handler L)) = 0 /\
      slog.ReplaceAttr (slog.options (handler L)) = None).
Proof.
  split.
  - destruct (Init_handler (Some json_config) initial eq_refl)
      as (a & g' & L & HI & HL & _ & Hj & _ & Hlv & _ & _ & Htf).
    exists a, g', L. split; [exact HI|]. split; [exact HL|].
    split; [now apply Hj|]. split; [exact Hlv|]. apply Htf. discriminate.
  - destruct (Init_handler None initial eq_refl)
      as (a & g' & L & HI & HL & _ & _ & Ht & Hlv & _ & Hr & _).
    exists a, g', L. split; [exact HI|]. split; [exact HL|].
    split; [apply Ht; discriminate|]. split; [exact Hlv|]. now apply Hr.
Defined.

(** A logger derived twice from the singleton. *)
Lemma loggers_share_handler_witness :
  exists g L,
    history [CallWith (Some 0%nat) [Go.Str "k"; Go.Int 1];
             CallWithGroup (Some 1%nat) "db"] ready = Some g /\
    heap g !! 2%nat = Some L /\
    handler L = new_handler (effective None) /\
    slog.base (slog L) = new_handler (effective None) /\
    Handler (Some 2%nat) g = Returns (new_handler (effective None)) g.
Proof.
  eexists _, _.
  assert (H : history [CallWith (Some 0%nat) [Go.Str "k"; Go.Int 1];
                       CallWithGroup (Some 1%nat) "db"] ready = Some _)
    by (vm_compute; reflexivity).
  split; [exact H|].
  match goal with
  | |- ?l !! ?i = Some ?u /\ _ =>
      assert (Ha : l !! i = Some u) by reflexivity
  end.
  split; [exact Ha|].
  exact (loggers_share_handler None _ (Some 0%nat) ready _ 2%nat _
           eq_refl H Ha).
Defined.




(** [With] on a nil logger panics and leaves the lock free. *)
Lemma lock_released_witness :
  exists g',
    perform (CallWith None [Go.Str "k"; Go.Int 1]) ready = Some g' /\
    mutex g' = false.
Proof.
  eexists.
  assert (H : perform (CallWith None [Go.Str "k"; Go.Int 1]) ready = Some _)
    by (vm_compute; reflexivity).
  split; [exact H|].
  pose proof (lock_released (CallWith None [Go.Str "k"; Go.Int 1]) ready eq_refl)
    as Hl.
  rewrite H in Hl. exact Hl.
Defined.

(** The calls on a nil logger. *)
Lemma nil_logger_panics_witness :
  With None [Go.Str "k"] ready = Panics nil_dereference ready /\
  WithGroup None "db" ready = Panics nil_dereference ready /\
  SetDefault None ready = Panics nil_dereference ready /\
  Handler None ready = Panics nil_dereference ready /\
  emit slog.LevelWarn None "w" [Go.Str "k"] ready = Panics nil_dereference ready /\
  WithContext None request_context ready = Panics nil_dereference ready.
Proof.
  destruct (nil_logger_panics ready [Go.Str "k"] "db" "w" request_context
              slog.LevelWarn eq_refl) as (H1 & H2 & H3 & H4 & H5 & H6).
  split; [exact H1|]. split; [exact H2|]. split; [exact H3|].
  split; [exact H4|]. split; [exact H5|]. apply H6. discriminate.
Defined.

(** [With] without arguments on the singleton. *)
Lemma With_nothing_copies_witness :
  With (Some 0%nat) [] ready =
    Returns (Some 1%nat) (set_heap [build None; build None] ready) /\
  WithGroup (Some 0%nat) "" ready =
    Returns (Some 1%nat) (set_heap [build None; build None] ready).
Proof.
  destruct (With_nothing_copies ready 0%nat (build None) eq_refl eq_refl)
    as (H1 & H2 & _).
  split; [exact H1 | exact H2].
Defined.

(** [SetDefault] on a derived logger. *)
Lemma default_only_by_SetDefault_witness :
  exists g,
    history [CallInit None; CallWithGroup (Some 0%nat) "db";
             CallSetDefault (Some 1%nat)] initial = Some g /\
    exists a L,
      In (CallSetDefault (Some a))
        [CallInit None; CallWithGroup (Some 0%nat) "db";
         CallSetDefault (Some 1%nat)] /\
      heap g !! a = Some L /\
      slog.WithGroup "db" (slog (build None)) = slog L.
Proof.
  eexists.
  assert (H : history [CallInit None; CallWithGroup (Some 0%nat) "db";
                       CallSetDefault (Some 1%nat)] initial = Some _)
    by (vm_compute; reflexivity).
  split; [exact H|].
  exact (proj1 (default_only_by_SetDefault _ _ H)).
Defined.

(** [NewWorkerPool] before [Init] and after it. *)
Lemma NewWorkerPool_needs_Init_witness :
  NewWorkerPool logger.initial =
    logger.Panics (Go.Str "logger not initialized") logger.initial /\
  exists a L,
    instance ready = Some a /\
    heap ready !! a = Some L /\
    NewWorkerPool ready =
      logger.Returns (new_pool 1)
        (set_heap
           (heap ready ++
              [{| slog := slog.WithGroup "worker pool" (slog L);
                  handler := handler L |}]) ready).
Proof.
  split.
  - exact (NewWorkerPool_needs_Init [] logger.initial eq_refl).
  - exact (NewWorkerPool_needs_Init [CallInit None] ready eq_refl).
Defined.


(** Two workers, the second between [wg.Add(1)] and its go statement. *)
Lemma wait_group_counts_witness :
  exists s,
    run None [Some idler; Some failing]
      [CallStart; StepStart; StepStart; StepStart] = Some s /\
    wg (pool s) = 2 /\
    wg (pool s) =
      outstanding (units s) + match start s with StartGo _ _ => 1 | _ => 0 end /\
    0 <= wg (pool s).
Proof.
  eexists.
  assert (H : run None [Some idler; Some failing]
                [CallStart; StepStart; StepStart; StepStart] = Some _)
    by (vm_compute; reflexivity).
  split; [exact H|]. split; [reflexivity|].
  destruct (wait_group_counts None [Some idler; Some failing] _
              (run_reachable _ _ _ _ H)) as (H1 & H2 & _).
  split; [exact H1 | exact H2].
Defined.

(** [Start] at [wg.Wait()] with one goroutine that has not run yet. *)
Lemma Wait_returns_when_all_done_witness :
  exists s,
    run None [Some idler] [CallStart; StepStart; StepStart; StepStart] = Some s /\
    start s = StartWait /\
    step StepStart s = None /\
    (is_Some (step StepStart s) <-> Forall exited (units s)).
Proof.
  eexists.
  assert (H : run None [Some idler]
                [CallStart; StepStart; StepStart; StepStart] = Some _)
    by (vm_compute; reflexivity).
  split; [exact H|]. split; [reflexivity|]. split; [reflexivity|].
  exact (Wait_returns_when_all_done None [Some idler] _
           (run_reachable _ _ _ _ H) eq_refl eq_refl).
Defined.

(** A worker that fails and a call of [Close]: two records. *)
Lemma pool_records_witness :
  exists s,
    run None [Some failing]
      [CallStart; StepStart; StepStart; StepUnit 0; StepUnit 0;
       CallClose; StepClose] = Some s /\
    map slog.message (logger.records (globals s)) =
      ["worker process err: %v"; "worker pool closing"] /\
    Forall (pool_record None) (logger.records (globals s)).
Proof.
  eexists.
  assert (H : run None [Some failing]
                [CallStart; StepStart; StepStart; StepUnit 0; StepUnit 0;
                 CallClose; StepClose] = Some _)
    by (vm_compute; reflexivity).
  split; [exact H|]. split; [reflexivity|].
  exact (pool_records None [Some failing] _ (run_reachable _ _ _ _ H)).
Defined.


(** The goroutine of a worker that returns nil, from its launch. *)
Lemma returning_worker_exits_witness :
  exists s s',
    run None [Some idler] [CallStart; StepStart; StepStart] = Some s /\
    exec [StepUnit 0; StepUnit 0; StepUnit 0] s = Some s' /\
    halted s' = None /\
    units s' = <[0%nat := {| worker := Some idler; pc := UnitExited |}]> (units s) /\
    wg (pool s') = wg (pool s) - 1 /\
    logger.records (globals s') = logger.records (globals s) /\
    start s' = start s /\ close s' = close s.
Proof.
  eexists.
  assert (H : run None [Some idler] [CallStart; StepStart; StepStart] = Some _)
    by (vm_compute; reflexivity).
  destruct (returning_worker_exits None [Some idler] _ 0%nat
              {| worker := Some idler; pc := UnitProcess |} idler
              (run_reachable _ _ _ _ H) eq_refl eq_refl eq_refl eq_refl eq_refl)
    as (s' & Hs').
  exists s'. split; [exact H | exact Hs'].
Defined.

(** The goroutine of a worker that returns an error, from its launch. *)
Lemma failing_worker_exits_witness :
  exists s s' r,
    run None [Some failing] [CallStart; StepStart; StepStart] = Some s /\
    exec [StepUnit 0; StepUnit 0; StepUnit 0; StepUnit 0] s = Some s' /\
    halted s' = None /\
    units s' = <[0%nat := {| worker := Some failing; pc := UnitExited |}]> (units s) /\
    wg (pool s') = wg (pool s) - 1 /\
    logger.records (globals s') = logger.records (globals s) ++ [r] /\
    slog.level r = slog.LevelError /\
    slog.message r = "worker process err: %v" /\
    slog.arguments r = [Go.Error "no route"] /\
    start s' = start s /\ close s' = close s.
Proof.
  eexists.
  assert (H : run None [Some failing] [CallStart; StepStart; StepStart] = Some _)
    by (vm_compute; reflexivity).
  destruct (failing_worker_exits None [Some failing] _ 0%nat
              {| worker := Some failing; pc := UnitProcess |} failing "no route"
              (run_reachable _ _ _ _ H) eq_refl eq_refl eq_refl eq_refl eq_refl)
    as (s' & r & Hs').
  exists s', r. split; [exact H | exact Hs'].
Defined.

(** Two workers registered before [Start] is called and one after. *)
Lemma Start_launches_snapshot_witness :
  exists wp g s1 s,
    setup None [Some idler] = logger.Returns wp g /\
    exec [CallRegister (Some failing)] (boot g wp) = Some s1 /\
    exec [CallStart; CallRegister (Some faulty); StepStart; StepStart; StepStart]
      s1 = Some s /\
    workers (pool s) = [Some idler; Some failing; Some faulty] /\
    start s <> StartIdle /\
    map worker (units s) ++ queue s = [Some idler; Some failing].
Proof.
  eexists _, _, _, _.
  split; [vm_compute; reflexivity|].
  match goal with
  | |- exec ?a1 (boot ?g ?wp) = Some ?s1 /\ _ =>
      assert (H1 : exec a1 (boot g wp) = Some s1) by (vm_compute; reflexivity)
  end.
  split; [exact H1|].
  match goal with
  | |- exec (CallStart :: ?a2) ?s1 = Some ?s /\ _ =>
      assert (H2 : exec (CallStart :: a2) s1 = Some s)
        by (vm_compute; reflexivity)
  end.
  split; [exact H2|]. split; [reflexivity|].
  exact (Start_launches_snapshot _ _ _ _ _ _ H1 eq_refl H2).
Defined.

End Samples.
